(** * person-matcher-sus: the matching engine, embedded and verified

  A shallow embedding of the matching code of
  [person_matcher_sus/data_matching] ([utils.py], [matching_data.py],
  [matching_base.py]) and the properties its specification states.

  - [SplitList]  : [utils.split_list], the batch splitter.
  - [UnionFind]  : [utils.find_root] and [utils.deduple_grouping].
  - [Grouping]   : [utils.linkage_grouping].
  - [Matching]   : [Deduple.perform_linkage] / [PLinkage.perform_linkage].
  - [Annotation] : [MatchingBase.save_files], [save_pairs], [load_pairs].

  Python integers are unbounded, so list positions and counts are [nat]
  and identifiers and tree counters are [Z]; numpy's float64 scores are
  the IEEE 754 values of the Standard Library's [spec_float]. *)

From Stdlib Require Import ZArith Lia List Ascii String.
From Stdlib Require Import Floats.PrimFloat Floats.SpecFloat Floats.FloatOps.
From stdpp Require Import base list sorting gmap strings pretty.

(* ===================================================================== *)
(** ** [utils.split_list] *)
(* ===================================================================== *)

Module SplitList.

Section defs.
Context {A : Type}.

(** Python's [lst[a:b]] for non-negative [a] and [b]: the elements at
    positions [a <= i < min b (len lst)]; empty when [b <= a]. *)
Definition slice (lst : list A) (a b : nat) : list A :=
  take (b - a) (drop a lst).

(** [[lst[i*(n//nparts) + min(i, n%nparts) :
          (i+1)*(n//nparts) + min(i+1, n%nparts)] for i in range(nparts)]].
    [range(nparts)] is empty for [nparts = 0], so the division is never
    evaluated there. *)
Definition split_list (lst : list A) (nparts : nat) : list (list A) :=
  let n := length lst in
  map (fun i => slice lst (i * (n / nparts) + i `min` (n `mod` nparts))
                          ((i + 1) * (n / nparts) + (i + 1) `min` (n `mod` nparts)))
      (seq 0 nparts).
End defs.

(** The cut positions of [split_list]. *)
Definition cut (n nparts i : nat) : nat :=
  i * (n / nparts) + i `min` (n `mod` nparts).

(** The size of part [i]. *)
Definition part_size (n nparts i : nat) : nat :=
  n / nparts + (if decide (i < n `mod` nparts) then 1 else 0).

Lemma cut_0 n k : cut n k 0 = 0.
Proof. unfold cut. lia. Qed.

Lemma cut_S n k i : cut n k (S i) = cut n k i + part_size n k i.
Proof. unfold cut, part_size. case_decide; lia. Qed.

Lemma cut_full n k : 0 < k → cut n k k = n.
Proof.
  intros Hk. unfold cut.
  pose proof (Nat.mod_upper_bound n k ltac:(lia)) as Hm.
  pose proof (Nat.div_mod_eq n k) as Hd.
  rewrite Nat.min_r by lia. lia.
Qed.

Lemma cut_mono n k i j : i ≤ j → cut n k i ≤ cut n k j.
Proof.
  induction 1 as [|j _ IH]; [done|]. rewrite cut_S. lia.
Qed.

Section facts.
Context {A : Type}.
Implicit Types lst : list A.

Lemma split_list_cuts lst k :
  split_list lst k
  = map (fun i => slice lst (cut (length lst) k i) (cut (length lst) k (S i)))
        (seq 0 k).
Proof.
  unfold split_list, cut. apply map_ext. intros i.
  by replace (i + 1) with (S i) by lia.
Qed.

Lemma split_list_length lst k : length (split_list lst k) = k.
Proof. unfold split_list. by rewrite length_map, length_seq. Qed.

(** Gluing the slices between consecutive cuts rebuilds a prefix. *)
Lemma concat_slices lst (c : nat → nat) m :
  c 0 = 0 → (∀ i, i < m → c i ≤ c (S i)) →
  concat (map (fun i => slice lst (c i) (c (S i))) (seq 0 m)) = take (c m) lst.
Proof.
  intros H0 Hmono. induction m as [|m IH].
  - simpl. by rewrite H0.
  - rewrite seq_S, map_app, concat_app, IH by (intros; apply Hmono; lia).
    simpl. rewrite app_nil_r. unfold slice.
    pose proof (Hmono m ltac:(lia)) as Hle.
    replace (c (S m)) with (c m + (c (S m) - c m)) at 2 by lia.
    by rewrite take_take_drop.
Qed.

Lemma split_list_concat lst k : 0 < k → concat (split_list lst k) = lst.
Proof.
  intros Hk. rewrite split_list_cuts, concat_slices.
  - rewrite cut_full by done. apply firstn_all.
  - apply cut_0.
  - intros i _. apply cut_mono. lia.
Qed.

Lemma slice_length lst a b : a ≤ b → b ≤ length lst → length (slice lst a b) = b - a.
Proof.
  intros Hab Hb. unfold slice. rewrite length_take, length_drop. lia.
Qed.

Lemma split_list_sizes lst k :
  0 < k →
  map length (split_list lst k) = map (part_size (length lst) k) (seq 0 k).
Proof.
  intros Hk. rewrite split_list_cuts, map_map. apply map_ext_in.
  intros i Hi. apply in_seq in Hi.
  rewrite slice_length.
  - rewrite cut_S. lia.
  - apply cut_mono. lia.
  - rewrite <- (cut_full (length lst) k) at 2 by done. apply cut_mono. lia.
Qed.

Lemma take_length_take n lst : take (length (take n lst)) lst = take n lst.
Proof.
  rewrite length_take.
  destruct (Nat.min_spec n (length lst)) as [[_ ->]|[Hle ->]]; [done|].
  by rewrite firstn_all, take_ge.
Qed.

Lemma split_list_part lst k i p :
  split_list lst k !! i = Some p →
  p = take (length p) (drop (cut (length lst) k i) lst).
Proof.
  rewrite split_list_cuts. intros Hp.
  apply list_lookup_fmap_Some in Hp as (j & -> & Hj).
  apply lookup_seq in Hj as [-> _]. simpl.
  unfold slice. symmetry. apply take_length_take.
Qed.

Lemma part_size_near n k i j : part_size n k i ≤ part_size n k j + 1.
Proof. unfold part_size. repeat case_decide; lia. Qed.

(** C4. For every list [lst] and every number of parts [k >= 1],
    [split_list lst k] returns exactly [k] sub-lists; each is a contiguous run
    of [lst]; any two of them differ in length by at most 1; concatenated in
    order they give back [lst]; and a list of 10 elements cut in 3 parts has
    part sizes [4, 3, 3]. *)
Theorem split_list_spec lst k :
  1 ≤ k →
  length (split_list lst k) = k
  ∧ concat (split_list lst k) = lst
  ∧ (∀ i p, split_list lst k !! i = Some p →
       p = take (length p) (drop (cut (length lst) k i) lst))
  ∧ (∀ p q, p ∈ split_list lst k → q ∈ split_list lst k →
       length p ≤ length q + 1)
  ∧ (length lst = 10 → k = 3 → map length (split_list lst k) = [4; 3; 3]).
Proof.
  intros Hk. split_and!.
  - apply split_list_length.
  - apply split_list_concat. lia.
  - apply split_list_part.
  - intros p q Hp Hq.
    assert (∀ x, x ∈ split_list lst k →
              ∃ i, length x = part_size (length lst) k i) as Hsz.
    { intros x Hx. apply (list_elem_of_fmap_2 length) in Hx.
      change (length x ∈ map length (split_list lst k)) in Hx.
      rewrite split_list_sizes in Hx by lia.
      apply list_elem_of_fmap in Hx as (i & -> & _). eauto. }
    destruct (Hsz p Hp) as [i ->], (Hsz q Hq) as [j ->].
    apply part_size_near.
  - intros Hn ->. rewrite split_list_sizes, Hn by lia. reflexivity.
Qed.
End facts.

(** The claim at the list [0..9] cut in three. *)
Lemma split_list_spec_witness :
  split_list (seq 0 10) 3 = [[0; 1; 2; 3]; [4; 5; 6]; [7; 8; 9]]
  ∧ concat (split_list (seq 0 10) 3) = seq 0 10.
Proof.
  split; [reflexivity|].
  apply (split_list_spec (seq 0 10) 3). lia.
Defined.

(** *** More on the parts *)

Lemma split_list_part_size {A} (lst : list A) k i p :
  1 ≤ k → split_list lst k !! i = Some p →
  i < k ∧ length p = part_size (length lst) k i.
Proof.
  intros Hk Hp.
  assert (i < k) as Hi.
  { apply lookup_lt_Some in Hp. by rewrite split_list_length in Hp. }
  split; [done|].
  assert (map length (split_list lst k) !! i = Some (length p)) as Hlen.
  { change (map length (split_list lst k)) with (length <$> split_list lst k).
    by rewrite list_lookup_fmap, Hp. }
  rewrite split_list_sizes in Hlen by lia.
  change (map (part_size (length lst) k) (seq 0 k))
    with (part_size (length lst) k <$> seq 0 k) in Hlen.
  rewrite list_lookup_fmap, lookup_seq_lt in Hlen by done.
  simpl in Hlen. congruence.
Qed.

(** The larger parts come first: part [i] has [n // k + 1] elements when
    [i < n % k] and [n // k] otherwise, so the sizes never grow along the
    list of parts; and some part is empty exactly when there are more parts
    than elements. *)
Theorem split_list_sizes_descend {A} (lst : list A) k :
  1 ≤ k →
  (∀ i p, split_list lst k !! i = Some p →
     length p = length lst / k + (if decide (i < length lst `mod` k) then 1 else 0))
  ∧ (∀ i j p q, i ≤ j → split_list lst k !! i = Some p →
       split_list lst k !! j = Some q → length q ≤ length p)
  ∧ ((∃ p, p ∈ split_list lst k ∧ p = []) ↔ length lst < k).
Proof.
  intros Hk. split_and!.
  - intros i p Hp. by destruct (split_list_part_size lst k i p Hk Hp).
  - intros i j p q Hij Hp Hq.
    destruct (split_list_part_size lst k i p Hk Hp) as [_ ->].
    destruct (split_list_part_size lst k j q Hk Hq) as [_ ->].
    unfold part_size. repeat case_decide; lia.
  - split.
    + intros (p & Hp & ->). apply list_elem_of_lookup in Hp as [i Hi].
      destruct (split_list_part_size lst k i [] Hk Hi) as [Hik Hsz].
      unfold part_size in Hsz. simpl in Hsz.
      destruct (Nat.lt_ge_cases (length lst) k) as [|Hge]; [done|].
      assert (1 ≤ length lst / k) by (apply Nat.div_le_lower_bound; lia).
      case_decide; lia.
    + intros Hlt. exists []. split; [|done].
      assert (k - 1 < length (split_list lst k)) as Hi
        by (rewrite split_list_length; lia).
      apply lookup_lt_is_Some_2 in Hi as [p Hp].
      destruct (split_list_part_size lst k (k - 1) p Hk Hp) as [_ Hsz].
      unfold part_size in Hsz.
      rewrite Nat.div_small, Nat.mod_small in Hsz by done.
      rewrite decide_False in Hsz by lia.
      destruct p; [|done]. by eapply list_elem_of_lookup_2.
Qed.

(** Two pairs cut in three batches: the last batch is empty. *)
Lemma split_list_sizes_descend_witness :
  split_list [10; 20] 3 = [[10]; [20]; []]
  ∧ ((∃ p, p ∈ split_list [10; 20] 3 ∧ p = []) ↔ length [10; 20] < 3).
Proof.
  split; [reflexivity|].
  apply (split_list_sizes_descend [10; 20] 3). lia.
Defined.

End SplitList.

(* ===================================================================== *)
(** ** [utils.find_root] and [utils.deduple_grouping] *)
(* ===================================================================== *)

Module UnionFind.
Local Open Scope Z_scope.

(** The confirmed pairs: the rows of the [left_id] and [right_id] columns. *)
Definition pair_table : Type := list (Z * Z).

(** The identifiers of an integer column are 64-bit signed integers.  On
    Python integers outside that range [np.unique] no longer builds an
    integer array of the same values (it falls back to float64 or to
    objects) and [ptr_index[left]] can raise a [KeyError]; what is claimed of
    every pair list is claimed of the tables whose identifiers are int64. *)
Definition int64 (x : Z) : Prop := -2 ^ 63 ≤ x < 2 ^ 63.

Definition int64_ids (pairs : pair_table) : Prop :=
  Forall (fun p : Z * Z => int64 p.1 ∧ int64 p.2) pairs.

(** [matched_records]: a Python dict keeps its keys in insertion order. *)
Definition clusters : Type := list (Z * list Z).

(** [np.unique]: the sorted distinct values, as numpy returns them for
    int64 identifiers. *)
Fixpoint insert_unique (x : Z) (l : list Z) : list Z :=
  match l with
  | [] => [x]
  | y :: t =>
      if x <? y then x :: l
      else if x =? y then l
      else y :: insert_unique x t
  end.

Definition np_unique (l : list Z) : list Z := foldr insert_unique [] l.

(** [ptr_index = dict(zip(unique_nots, arange(n)))]: the position of an
    identifier in [unique_nots]; [None] is Python's [KeyError]. *)
Fixpoint ptr_index (unique_nots : list Z) (x : Z) : option nat :=
  match unique_nots with
  | [] => None
  | y :: t => if decide (x = y) then Some 0%nat else S <$> ptr_index t x
  end.

(** [find_root]: [while ptr[dummy] >= 0: dummy = ptr[dummy]].  The loop is
    run with fuel; [None] stands for an [IndexError] or for a walk that has
    not reached a root when the fuel is spent.  Positions are [nat]: the
    walk starts at a position of [ptr] and only follows entries [>= 0]. *)
Fixpoint find_root_fuel (fuel : nat) (index : nat) (ptr : list Z) : option nat :=
  match ptr !! index with
  | None => None
  | Some v =>
      if 0 <=? v then
        match fuel with
        | O => None
        | S fuel' => find_root_fuel fuel' (Z.to_nat v) ptr
        end
      else Some index
  end.

Definition find_root (index : nat) (ptr : list Z) : option nat :=
  find_root_fuel (length ptr) index ptr.

(** One iteration of the pair loop, lines 276-292: find both roots, skip
    when they agree, otherwise hang the root with the smaller tree under the
    other one and add the counters. *)
Definition union_step (ptr : list Z) (left_index right_index : nat)
  : option (list Z) :=
  left_root ← find_root left_index ptr;
  right_root ← find_root right_index ptr;
  if decide (left_root = right_root) then Some ptr
  else
    size_l ← ptr !! left_root;
    size_r ← ptr !! right_root;
    let '(bigger_root, smaller_root) :=
      if size_r <? size_l then (right_root, left_root)
      else (left_root, right_root) in
    size_b ← ptr !! bigger_root;
    size_s ← ptr !! smaller_root;
    Some (<[smaller_root := Z.of_nat bigger_root]>
            (<[bigger_root := size_b + size_s]> ptr)).

(** The loop over the pairs, in input order. *)
Fixpoint union_loop (unique_nots : list Z) (pairs : pair_table) (ptr : list Z)
  : option (list Z) :=
  match pairs with
  | [] => Some ptr
  | (left_id, right_id) :: rest =>
      left_index ← ptr_index unique_nots left_id;
      right_index ← ptr_index unique_nots right_id;
      ptr' ← union_step ptr left_index right_index;
      union_loop unique_nots rest ptr'
  end.

(** [matched_records[k].append(v)] on a [defaultdict(list)]. *)
Fixpoint dict_append (k v : Z) (d : clusters) : clusters :=
  match d with
  | [] => [(k, [v])]
  | (k', vs) :: t =>
      if decide (k = k') then (k', vs ++ [v]) :: t
      else (k', vs) :: dict_append k v t
  end.

(** One iteration of the output loop, lines 296-299. *)
Definition collect_step (unique_nots : list Z) (ptr : list Z)
  (acc : option clusters) (index : nat) : option clusters :=
  matched_records ← acc;
  local_not ← unique_nots !! index;
  root ← find_root index ptr;
  root_not ← unique_nots !! root;
  Some (if decide (root_not ≠ local_not)
        then dict_append root_not local_not matched_records
        else matched_records).

Definition collect (unique_nots : list Z) (ptr : list Z) : option clusters :=
  foldl (collect_step unique_nots ptr) (Some []) (seq 0 (length ptr)).

(** [deduple_grouping] on a table of int64 identifiers (see [int64_ids]);
    [None] would be an exception or a walk out of fuel.  For identifiers
    that numpy cannot keep as int64 the definition still follows the loop
    over exact integers, where the code may raise a [KeyError] instead. *)
Definition deduple_grouping (pairs : pair_table) : option clusters :=
  let left_nots := map fst pairs in
  let right_nots := map snd pairs in
  let unique_nots := np_unique (left_nots ++ right_nots) in
  let ptr := replicate (length unique_nots) (-1) in
  ptr' ← union_loop unique_nots pairs ptr;
  collect unique_nots ptr'.

Example deduple_grouping_ex1 :
  deduple_grouping [(1, 2); (2, 3); (4, 5)] = Some [(1, [2; 3]); (4, [5])].
Proof. reflexivity. Qed.

Example deduple_grouping_ex2 :
  deduple_grouping [(3, 4); (1, 2); (2, 4)] = Some [(1, [2; 3; 4])].
Proof. reflexivity. Qed.

Example deduple_grouping_self : deduple_grouping [(1, 1)] = Some [].
Proof. reflexivity. Qed.

(** *** [np.unique] and [ptr_index] *)

Lemma insert_unique_elem x y l : y ∈ insert_unique x l ↔ y = x ∨ y ∈ l.
Proof.
  induction l as [|z t IH]; simpl.
  - rewrite list_elem_of_singleton, elem_of_nil. tauto.
  - destruct (Z.ltb_spec x z); [by rewrite elem_of_cons|].
    destruct (Z.eqb_spec x z) as [->|].
    + rewrite elem_of_cons. tauto.
    + rewrite !elem_of_cons, IH. tauto.
Qed.

Lemma insert_unique_sorted x l :
  StronglySorted Z.lt l → StronglySorted Z.lt (insert_unique x l).
Proof.
  induction 1 as [|z t Hs IH Hall]; simpl.
  - repeat constructor.
  - destruct (Z.ltb_spec x z).
    + constructor; [by constructor|].
      constructor; [done|]. eapply Forall_impl; [exact Hall|]. simpl. lia.
    + destruct (Z.eqb_spec x z); [by constructor|].
      constructor; [done|].
      apply Forall_forall. intros y Hy. apply insert_unique_elem in Hy as [->|Hy].
      * lia.
      * by eapply Forall_forall in Hall.
Qed.

Lemma np_unique_elem x l : x ∈ np_unique l ↔ x ∈ l.
Proof.
  induction l as [|y t IH]; simpl; [done|].
  by rewrite insert_unique_elem, IH, elem_of_cons.
Qed.

Lemma np_unique_sorted l : StronglySorted Z.lt (np_unique l).
Proof.
  induction l; simpl; [constructor|]. by apply insert_unique_sorted.
Qed.

Lemma sorted_lt_NoDup (l : list Z) : StronglySorted Z.lt l → NoDup l.
Proof.
  induction 1 as [|z t Hs IH Hall]; constructor; [|done].
  intros Hz. eapply Forall_forall in Hall; [|exact Hz]. lia.
Qed.

Lemma np_unique_NoDup l : NoDup (np_unique l).
Proof. apply sorted_lt_NoDup, np_unique_sorted. Qed.

Lemma ptr_index_Some ids x i : ptr_index ids x = Some i → ids !! i = Some x.
Proof.
  revert i. induction ids as [|y t IH]; intros i; simpl; [done|].
  case_decide as Hxy.
  - intros [= <-]. by subst.
  - destruct (ptr_index t x) as [j|]; simpl; [|done].
    intros [= <-]. simpl. by apply IH.
Qed.

Lemma ptr_index_elem ids x : x ∈ ids → is_Some (ptr_index ids x).
Proof.
  induction ids as [|y t IH]; simpl.
  - by intros ?%elem_of_nil.
  - intros Hx. case_decide; [eauto|].
    apply elem_of_cons in Hx as [?|Hx]; [done|].
    destruct (IH Hx) as [j ->]. simpl. eauto.
Qed.

Lemma ptr_index_lookup ids x i :
  NoDup ids → ids !! i = Some x → ptr_index ids x = Some i.
Proof.
  intros Hnd Hi. destruct (ptr_index_elem ids x) as [j Hj].
  - by eapply list_elem_of_lookup_2.
  - rewrite Hj. f_equal. apply ptr_index_Some in Hj.
    by eapply NoDup_lookup.
Qed.

(** *** Walks to a root *)

(** [Root ptr i r]: the walk of [find_root] from position [i] ends at [r]. *)
Inductive Root (ptr : list Z) : nat → nat → Prop :=
| Root_here i v : ptr !! i = Some v → v < 0 → Root ptr i i
| Root_step i v r :
    ptr !! i = Some v → 0 ≤ v → Root ptr (Z.to_nat v) r → Root ptr i r.

Lemma Root_fun ptr i r1 r2 : Root ptr i r1 → Root ptr i r2 → r1 = r2.
Proof.
  induction 1 as [i v Hv Hneg|i v r Hv Hpos _ IH]; inversion 1; simplify_eq;
    try lia; auto.
Qed.

Lemma Root_end ptr i r : Root ptr i r → ∃ v, ptr !! r = Some v ∧ v < 0.
Proof. induction 1; eauto. Qed.

Lemma Root_start ptr i r : Root ptr i r → (i < length ptr)%nat.
Proof. destruct 1; by eapply lookup_lt_Some. Qed.

Lemma Root_idem ptr i r : Root ptr i r → Root ptr r r.
Proof. intros (v & ? & ?)%Root_end. by econstructor. Qed.

Lemma find_root_fuel_Root fuel ptr i r :
  find_root_fuel fuel i ptr = Some r → Root ptr i r.
Proof.
  revert i. induction fuel as [|fuel IH]; intros i; simpl;
    destruct (ptr !! i) as [v|] eqn:Hv; try done;
    destruct (Z.leb_spec 0 v); try done.
  - intros [= <-]. by econstructor.
  - intros Hr. eapply Root_step; eauto.
  - intros [= <-]. by econstructor.
Qed.

(** *** The forest invariant

    The counter of a root is minus the size of its tree, so the counters of
    the roots add up to the number of positions; a rank [h] that grows along
    every link and stays below the counter bounds the length of each walk. *)

Definition weight (v : Z) : Z := Z.max 0 (- v).

Definition total (ptr : list Z) : Z := foldr (fun v s => weight v + s) 0 ptr.

Record forest (h : nat → nat) (ptr : list Z) : Prop := {
  forest_total : total ptr = Z.of_nat (length ptr);
  forest_rank : ∀ i, (i < length ptr)%nat → (h i < length ptr)%nat;
  forest_root : ∀ i v, ptr !! i = Some v → v < 0 → Z.of_nat (h i) < - v;
  forest_link : ∀ i v, ptr !! i = Some v → 0 ≤ v →
    (Z.to_nat v < length ptr)%nat ∧ (h i < h (Z.to_nat v))%nat
}.

Lemma total_nonneg ptr : 0 ≤ total ptr.
Proof. induction ptr; simpl; unfold weight in *; lia. Qed.

Lemma weight_le_total ptr i v : ptr !! i = Some v → weight v ≤ total ptr.
Proof.
  revert i. induction ptr as [|w t IH]; intros [|i]; simpl; try done.
  - intros [= ->]. pose proof (total_nonneg t). lia.
  - intros Hv%IH. unfold weight in *. lia.
Qed.

Lemma total_insert ptr i v w :
  ptr !! i = Some v → total (<[i:=w]> ptr) = total ptr - weight v + weight w.
Proof.
  revert i. induction ptr as [|u t IH]; intros [|i]; simpl; try done.
  - intros [= ->]. lia.
  - intros Hv%IH. lia.
Qed.

Lemma total_replicate n : total (replicate n (-1)) = Z.of_nat n.
Proof. induction n as [|n IH]; simpl; [done|]. unfold weight. lia. Qed.

Lemma forest_init n : forest (fun _ => 0%nat) (replicate n (-1)).
Proof.
  split.
  - by rewrite total_replicate, length_replicate.
  - rewrite length_replicate. lia.
  - intros i v [-> _]%lookup_replicate. lia.
  - intros i v [-> _]%lookup_replicate. lia.
Qed.

Lemma find_root_fuel_total h ptr fuel i :
  forest h ptr → (i < length ptr)%nat → (length ptr ≤ fuel + h i + 1)%nat →
  is_Some (find_root_fuel fuel i ptr).
Proof.
  intros Hf. revert i. induction fuel as [|fuel IH]; intros i Hi Hfuel;
    destruct (lookup_lt_is_Some_2 ptr i Hi) as [v Hv]; simpl; rewrite Hv;
    destruct (Z.leb_spec 0 v) as [Hpos|Hneg]; eauto.
  - destruct (forest_link h ptr Hf i v Hv Hpos) as [Hp Hh].
    pose proof (forest_rank h ptr Hf _ Hp). lia.
  - destruct (forest_link h ptr Hf i v Hv Hpos) as [Hp Hh].
    apply IH; [done|lia].
Qed.

Lemma find_root_total h ptr i :
  forest h ptr → (i < length ptr)%nat →
  ∃ r, find_root i ptr = Some r ∧ Root ptr i r.
Proof.
  intros Hf Hi.
  destruct (find_root_fuel_total h ptr (length ptr) i Hf Hi ltac:(lia)) as [r Hr].
  exists r. split; [done|]. by eapply find_root_fuel_Root.
Qed.

(** *** One union

    [link ptr b s pb ps] is [ptr] after [ptr[b] += ptr[s]; ptr[s] = b]. *)

Definition link (ptr : list Z) (b s : nat) (pb ps : Z) : list Z :=
  <[s := Z.of_nat b]> (<[b := pb + ps]> ptr).

Section link_facts.
Variables (ptr : list Z) (b s : nat) (pb ps : Z).
Hypothesis Hb : ptr !! b = Some pb.
Hypothesis Hs : ptr !! s = Some ps.
Hypothesis Hpb : pb < 0.
Hypothesis Hps : ps < 0.
Hypothesis Hbs : b ≠ s.

Lemma link_length : length (link ptr b s pb ps) = length ptr.
Proof. unfold link. by rewrite !length_insert. Qed.

Lemma link_lookup_s : link ptr b s pb ps !! s = Some (Z.of_nat b).
Proof.
  unfold link. apply list_lookup_insert_eq. rewrite length_insert.
  by eapply lookup_lt_Some.
Qed.

Lemma link_lookup_b : link ptr b s pb ps !! b = Some (pb + ps).
Proof.
  unfold link. rewrite list_lookup_insert_ne by done.
  apply list_lookup_insert_eq. by eapply lookup_lt_Some.
Qed.

Lemma link_lookup_other i :
  i ≠ b → i ≠ s → link ptr b s pb ps !! i = ptr !! i.
Proof.
  intros Hib His. unfold link. by rewrite !list_lookup_insert_ne.
Qed.

Lemma link_total : total (link ptr b s pb ps) = total ptr.
Proof.
  unfold link. rewrite (total_insert _ s ps).
  - rewrite (total_insert _ b pb) by done. unfold weight. lia.
  - by rewrite list_lookup_insert_ne.
Qed.

Lemma link_forest h :
  forest h ptr →
  forest (fun i => if decide (i = b) then (h b `max` S (h s))%nat else h i)
         (link ptr b s pb ps).
Proof.
  intros Hf.
  pose proof (forest_root h ptr Hf b pb Hb Hpb) as Hhb.
  pose proof (forest_root h ptr Hf s ps Hs Hps) as Hhs.
  assert (weight (pb + ps) ≤ Z.of_nat (length ptr)) as Hw.
  { rewrite <- (forest_total h ptr Hf), <- link_total.
    eapply weight_le_total, link_lookup_b. }
  unfold weight in Hw.
  split; rewrite ?link_length.
  - rewrite link_total. apply Hf.
  - intros i Hi. case_decide; [lia|]. by apply Hf.
  - intros i v Hv Hneg. destruct (decide (i = b)) as [->|Hib].
    + rewrite link_lookup_b in Hv. simplify_eq. lia.
    + destruct (decide (i = s)) as [->|His].
      * rewrite link_lookup_s in Hv. simplify_eq. lia.
      * rewrite link_lookup_other in Hv by done. by eapply forest_root.
  - intros i v Hv Hpos. destruct (decide (i = b)) as [->|Hib].
    + rewrite link_lookup_b in Hv. simplify_eq. lia.
    + destruct (decide (i = s)) as [->|His].
      * rewrite link_lookup_s in Hv. simplify_eq. rewrite Nat2Z.id.
        split; [by eapply lookup_lt_Some|].
        rewrite decide_True by done. lia.
      * rewrite link_lookup_other in Hv by done.
        destruct (forest_link h ptr Hf i v Hv Hpos) as [Hp Hh].
        split; [done|].
        case_decide as Hvb; [rewrite Hvb in Hh|]; lia.
Qed.

Lemma link_Root i r :
  Root ptr i r → Root (link ptr b s pb ps) i (if decide (r = s) then b else r).
Proof.
  assert (Root (link ptr b s pb ps) b b) as Hbb.
  { eapply Root_here; [apply link_lookup_b|lia]. }
  induction 1 as [i v Hv Hneg|i v r Hv Hpos _ IH].
  - case_decide as His.
    + subst i. eapply Root_step; [apply link_lookup_s|lia|].
      by rewrite Nat2Z.id.
    + destruct (decide (i = b)) as [->|Hib]; [done|].
      eapply Root_here; [|exact Hneg]. by rewrite link_lookup_other.
  - assert (i ≠ b) by (intros ->; simplify_eq; lia).
    assert (i ≠ s) by (intros ->; simplify_eq; lia).
    eapply Root_step; [|exact Hpos|exact IH]. by rewrite link_lookup_other.
Qed.

Lemma link_new_edge i v :
  link ptr b s pb ps !! i = Some v → 0 ≤ v →
  ptr !! i = Some v ∨ (i = s ∧ Z.to_nat v = b).
Proof.
  intros Hv Hpos. destruct (decide (i = b)) as [->|Hib].
  - rewrite link_lookup_b in Hv. simplify_eq. lia.
  - destruct (decide (i = s)) as [->|His].
    + rewrite link_lookup_s in Hv. simplify_eq. right. by rewrite Nat2Z.id.
    + rewrite link_lookup_other in Hv by done. by left.
Qed.
End link_facts.

Lemma union_step_cases h ptr li ri :
  forest h ptr → (li < length ptr)%nat → (ri < length ptr)%nat →
  ∃ lr rr, Root ptr li lr ∧ Root ptr ri rr ∧
    ((lr = rr ∧ union_step ptr li ri = Some ptr) ∨
     (lr ≠ rr ∧ ∃ pl pr,
        ptr !! lr = Some pl ∧ ptr !! rr = Some pr ∧ pl < 0 ∧ pr < 0 ∧
        union_step ptr li ri
        = Some (if pr <? pl then link ptr rr lr pr pl else link ptr lr rr pl pr))).
Proof.
  intros Hf Hli Hri.
  destruct (find_root_total h ptr li Hf Hli) as (lr & Hfl & Hl).
  destruct (find_root_total h ptr ri Hf Hri) as (rr & Hfr & Hr).
  exists lr, rr. split_and!; [done..|].
  unfold union_step. rewrite Hfl, Hfr. simpl.
  case_decide as Heq; [by left|right]. split; [done|].
  destruct (Root_end _ _ _ Hl) as (pl & Hpl & ?).
  destruct (Root_end _ _ _ Hr) as (pr & Hpr & ?).
  exists pl, pr. split_and!; [done..|].
  rewrite Hpl, Hpr. simpl.
  destruct (pr <? pl); simpl; by rewrite Hpl, Hpr.
Qed.

(** *** The pair loop *)

Definition unique_ids (pairs : pair_table) : list Z :=
  np_unique (map fst pairs ++ map snd pairs).

(** Two identifiers are connected when a chain of confirmed pairs, each
    taken in either direction, leads from one to the other. *)
Inductive connected (pairs : pair_table) : Z → Z → Prop :=
| conn_pair a b : (a, b) ∈ pairs → connected pairs a b
| conn_sym a b : connected pairs a b → connected pairs b a
| conn_trans a b c :
    connected pairs a b → connected pairs b c → connected pairs a c.

(** Two positions are in the same tree. *)
Definition same (ptr : list Z) (i j : nat) : Prop :=
  ∃ r, Root ptr i r ∧ Root ptr j r.

Lemma same_sym ptr i j : same ptr i j → same ptr j i.
Proof. intros (r & ? & ?). by exists r. Qed.

Lemma same_trans ptr i j k : same ptr i j → same ptr j k → same ptr i k.
Proof.
  intros (r & Hi & Hj) (r' & Hj' & Hk).
  rewrite <- (Root_fun _ _ _ _ Hj Hj') in Hk. by exists r.
Qed.

Lemma unique_ids_pair pairs a b :
  (a, b) ∈ pairs → a ∈ unique_ids pairs ∧ b ∈ unique_ids pairs.
Proof.
  intros Hab. unfold unique_ids. rewrite !np_unique_elem, !elem_of_app.
  split; [left|right].
  - by apply (list_elem_of_fmap_2 fst) in Hab.
  - by apply (list_elem_of_fmap_2 snd) in Hab.
Qed.

Lemma connected_ids pairs a b :
  connected pairs a b → a ∈ unique_ids pairs ∧ b ∈ unique_ids pairs.
Proof.
  induction 1 as [a b Hab| |]; [by apply unique_ids_pair|tauto..].
Qed.

Record uf_inv (pairs : pair_table) (ptr : list Z) : Prop := {
  inv_length : length ptr = length (unique_ids pairs);
  inv_forest : ∃ h, forest h ptr;
  inv_edges : ∀ i v x y,
    ptr !! i = Some v → 0 ≤ v →
    unique_ids pairs !! i = Some x → unique_ids pairs !! Z.to_nat v = Some y →
    connected pairs x y
}.

Lemma uf_inv_init pairs :
  uf_inv pairs (replicate (length (unique_ids pairs)) (-1)).
Proof.
  split.
  - by rewrite length_replicate.
  - eexists. apply forest_init.
  - intros i v x y [-> _]%lookup_replicate. lia.
Qed.

Section loop.
Variable pairs : pair_table.
Local Abbreviation ids := (unique_ids pairs).

Lemma Root_connected ptr i r x y :
  uf_inv pairs ptr → Root ptr i r →
  ids !! i = Some x → ids !! r = Some y → x = y ∨ connected pairs x y.
Proof.
  intros Hinv Hroot. revert x.
  induction Hroot as [i v Hv Hneg|i v r Hv Hpos Hroot IH]; intros x Hx Hy.
  - left. congruence.
  - right. destruct Hinv as [Hlen [h Hf] Hedges].
    destruct (forest_link h ptr Hf i v Hv Hpos) as [Hp _].
    rewrite Hlen in Hp. apply lookup_lt_is_Some_2 in Hp as [z Hz].
    pose proof (Hedges i v x z Hv Hpos Hx Hz) as Hxz.
    destruct (IH z Hz Hy) as [->|Hzy]; [done|]. by eapply conn_trans.
Qed.

Lemma union_step_inv ptr l r li ri :
  uf_inv pairs ptr → (l, r) ∈ pairs →
  ptr_index ids l = Some li → ptr_index ids r = Some ri →
  ∃ ptr', union_step ptr li ri = Some ptr' ∧ uf_inv pairs ptr'
    ∧ same ptr' li ri ∧ (∀ i j, same ptr i j → same ptr' i j).
Proof.
  intros Hinv Hlr Hli%ptr_index_Some Hri%ptr_index_Some.
  pose proof Hinv as [Hlen [h Hf] Hedges].
  assert (li < length ptr)%nat as Hli' by (rewrite Hlen; by eapply lookup_lt_Some).
  assert (ri < length ptr)%nat as Hri' by (rewrite Hlen; by eapply lookup_lt_Some).
  destruct (union_step_cases h ptr li ri Hf Hli' Hri')
    as (lr & rr & Hl & Hr & [[-> Hstep]|(Hne & pl & pr & Hpl & Hpr & ? & ? & Hstep)]).
  { exists ptr. split_and!; [done..|by exists rr|done]. }
  assert (∃ xl xr, ids !! lr = Some xl ∧ ids !! rr = Some xr) as (xl & xr & Hxl & Hxr).
  { apply lookup_lt_Some in Hpl, Hpr. rewrite Hlen in Hpl, Hpr.
    apply lookup_lt_is_Some_2 in Hpl as [xl ?], Hpr as [xr ?]. eauto. }
  assert (connected pairs xl xr) as Hconn.
  { destruct (Root_connected ptr li lr l xl Hinv Hl Hli Hxl) as [->|H1];
      destruct (Root_connected ptr ri rr r xr Hinv Hr Hri Hxr) as [->|H2].
    - by constructor.
    - eapply conn_trans; [by constructor|done].
    - eapply conn_trans; [by apply conn_sym|by constructor].
    - eapply conn_trans; [by apply conn_sym|].
      eapply conn_trans; [by constructor|done]. }
  assert (∀ b s pb ps xb xs,
    ptr !! b = Some pb → ptr !! s = Some ps → pb < 0 → ps < 0 → b ≠ s →
    ids !! b = Some xb → ids !! s = Some xs → connected pairs xs xb →
    Root ptr li b ∨ Root ptr li s → Root ptr ri b ∨ Root ptr ri s →
    uf_inv pairs (link ptr b s pb ps) ∧ same (link ptr b s pb ps) li ri
    ∧ (∀ i j, same ptr i j → same (link ptr b s pb ps) i j)) as Hlink.
  { intros b s pb ps xb xs Hb Hs Hnb Hns Hbs Hxb Hxs Hsb Hlb Hrb.
    assert (∀ i r0, Root ptr i r0 → (r0 = b ∨ r0 = s) →
              Root (link ptr b s pb ps) i b) as Hto.
    { intros i r0 Hi Hr0. pose proof (link_Root ptr b s pb ps Hb Hs Hnb Hns Hbs i r0 Hi) as H'.
      destruct Hr0 as [->| ->].
      - by rewrite decide_False in H' by done.
      - by rewrite decide_True in H' by done. }
    split_and!.
    - split.
      + by rewrite link_length.
      + eexists. by apply link_forest.
      + intros i v x y Hv Hpos Hx Hy.
        destruct (link_new_edge ptr b s pb ps Hb Hs Hnb Hns Hbs i v Hv Hpos)
          as [Hold|[-> Hvb]]; [by eapply Hedges|].
        rewrite Hvb in Hy. by simplify_eq.
    - exists b. split.
      + destruct Hlb; eapply Hto; eauto.
      + destruct Hrb; eapply Hto; eauto.
    - intros i j (r0 & Hi & Hj).
      eexists. split; by eapply link_Root. }
  eexists. split; [exact Hstep|].
  destruct (pr <? pl).
  - eapply Hlink; eauto.
  - eapply Hlink; eauto using conn_sym.
Qed.

Lemma union_loop_inv rest ptr :
  (∀ e, e ∈ rest → e ∈ pairs) → uf_inv pairs ptr →
  ∃ ptr', union_loop ids rest ptr = Some ptr' ∧ uf_inv pairs ptr'
    ∧ (∀ i j, same ptr i j → same ptr' i j)
    ∧ (∀ l r li ri, (l, r) ∈ rest →
         ptr_index ids l = Some li → ptr_index ids r = Some ri → same ptr' li ri).
Proof.
  revert ptr. induction rest as [|[l r] rest IH]; intros ptr Hsub Hinv; simpl.
  - exists ptr. split_and!; [done..|]. by intros l r li ri ?%elem_of_nil.
  - assert ((l, r) ∈ pairs) as Hlr by (apply Hsub; left).
    destruct (unique_ids_pair pairs l r Hlr) as [Hl Hr].
    destruct (ptr_index_elem _ _ Hl) as [li Hli], (ptr_index_elem _ _ Hr) as [ri Hri].
    rewrite Hli, Hri. simpl.
    destruct (union_step_inv ptr l r li ri Hinv Hlr Hli Hri)
      as (ptr1 & -> & Hinv1 & Hsame1 & Hmono1). simpl.
    destruct (IH ptr1) as (ptr' & -> & Hinv' & Hmono' & Hrest); [|done|].
    { intros e He. apply Hsub. by right. }
    exists ptr'. split_and!; [done..|auto|].
    intros l' r' li' ri' [[= -> ->]|Hin]%elem_of_cons Hli' Hri'.
    + simplify_eq. by apply Hmono'.
    + by eapply Hrest.
Qed.
End loop.

(** *** The output dictionary *)

(** [d.get(k)]. *)
Fixpoint dict_get (k : Z) (d : clusters) : option (list Z) :=
  match d with
  | [] => None
  | (k', vs) :: t => if decide (k = k') then Some vs else dict_get k t
  end.

(** The appends [(key, value)] of a run, applied in order. *)
Definition group (E : list (Z * Z)) (d : clusters) : clusters :=
  foldl (fun d e => dict_append e.1 e.2 d) d E.

(** The values appended under key [k]. *)
Definition vals (k : Z) (E : list (Z * Z)) : list Z :=
  (filter (fun e => e.1 = k) E).*2.

Lemma dict_get_append_eq k v d :
  dict_get k (dict_append k v d) = Some (default [] (dict_get k d) ++ [v]).
Proof.
  induction d as [|[k' vs] t IH]; simpl.
  - by rewrite decide_True.
  - destruct (decide (k = k')) as [->|Hne]; simpl.
    + by rewrite decide_True.
    + by rewrite decide_False.
Qed.

Lemma dict_get_append_ne k k' v d :
  k ≠ k' → dict_get k' (dict_append k v d) = dict_get k' d.
Proof.
  intros Hne. induction d as [|[k0 vs] t IH]; simpl.
  - by rewrite decide_False.
  - destruct (decide (k = k0)) as [->|Hne0]; simpl.
    + by rewrite !decide_False.
    + by rewrite IH.
Qed.

Lemma dict_append_keys k v d x :
  x ∈ (dict_append k v d).*1 ↔ x = k ∨ x ∈ d.*1.
Proof.
  induction d as [|[k0 vs] t IH]; simpl.
  - rewrite list_elem_of_singleton, elem_of_nil. tauto.
  - destruct (decide (k = k0)) as [->|Hne]; simpl.
    + rewrite elem_of_cons. tauto.
    + rewrite !elem_of_cons, IH. tauto.
Qed.

Lemma dict_append_NoDup k v d : NoDup d.*1 → NoDup (dict_append k v d).*1.
Proof.
  induction d as [|[k0 vs] t IH]; simpl.
  - intros _. apply NoDup_singleton.
  - intros [Hk0 Ht]%NoDup_cons.
    destruct (decide (k = k0)) as [->|Hne]; simpl.
    + by apply NoDup_cons.
    + apply NoDup_cons. split; [|by apply IH].
      rewrite dict_append_keys. intros [?|?]; by simplify_eq.
Qed.

Lemma group_NoDup E d : NoDup d.*1 → NoDup (group E d).*1.
Proof.
  revert d. induction E as [|e E IH]; intros d Hd; simpl; [done|].
  by apply IH, dict_append_NoDup.
Qed.

Lemma dict_get_group k E d :
  dict_get k (group E d)
  = match dict_get k d, vals k E with
    | None, [] => None
    | o, vs => Some (default [] o ++ vs)
    end.
Proof.
  revert d. induction E as [|[k' v] E IH]; intros d.
  - unfold vals. simpl. destruct (dict_get k d); simpl; [|done].
    by rewrite app_nil_r.
  - change (group ((k', v) :: E) d) with (group E (dict_append k' v d)).
    rewrite IH. unfold vals. rewrite filter_cons. simpl.
    destruct (decide (k' = k)) as [->|Hne].
    + rewrite dict_get_append_eq. simpl. rewrite <- app_assoc. simpl.
      by destruct (dict_get k d).
    + by rewrite dict_get_append_ne.
Qed.

Lemma dict_get_group_nil k E :
  dict_get k (group E [])
  = match vals k E with [] => None | vs => Some vs end.
Proof. rewrite dict_get_group. simpl. by destruct (vals k E). Qed.

Lemma elem_of_vals k x E : x ∈ vals k E ↔ (k, x) ∈ E.
Proof.
  unfold vals. rewrite list_elem_of_fmap. split.
  - intros ([k' x'] & -> & [Hk He]%list_elem_of_filter). simpl in *. by subst.
  - intros He. exists (k, x). split; [done|]. by apply list_elem_of_filter.
Qed.

Lemma vals_NoDup k E : NoDup E.*2 → NoDup (vals k E).
Proof.
  intros Hnd. eapply sublist_NoDup; [exact Hnd|].
  unfold vals. apply fmap_sublist, sublist_filter.
Qed.

Lemma NoDup_omap_inj {A B} (f : A → option B) (l : list A) :
  NoDup l → (∀ i j x, f i = Some x → f j = Some x → i = j) → NoDup (omap f l).
Proof.
  intros Hnd Hinj. induction Hnd as [|a l Ha Hl IH]; simpl; [constructor|].
  destruct (f a) as [x|] eqn:Hfa; [|done].
  constructor; [|done].
  intros (j & Hj & Hfj)%list_elem_of_omap.
  by rewrite (Hinj a j x Hfa Hfj) in Ha.
Qed.

(** The append of position [index] in the output loop, if any. *)
Definition emit (unique_nots : list Z) (ptr : list Z) (index : nat)
  : option (Z * Z) :=
  local_not ← unique_nots !! index;
  root ← find_root index ptr;
  root_not ← unique_nots !! root;
  if decide (root_not ≠ local_not) then Some (root_not, local_not) else None.

Definition emits (unique_nots : list Z) (ptr : list Z) : list (Z * Z) :=
  omap (emit unique_nots ptr) (seq 0 (length ptr)).

Lemma collect_fold ids ptr l d :
  (∀ i, i ∈ l → ∃ r, is_Some (ids !! i) ∧ find_root i ptr = Some r
                    ∧ is_Some (ids !! r)) →
  foldl (collect_step ids ptr) (Some d) l
  = Some (group (omap (emit ids ptr) l) d).
Proof.
  revert d. induction l as [|i l IH]; intros d Hl; simpl; [done|].
  destruct (Hl i ltac:(left)) as (r & [x Hx] & Hr & [y Hy]).
  unfold emit. rewrite Hx, Hr. simpl. rewrite Hy. simpl.
  case_decide; simpl; apply IH; intros j Hj; apply Hl; by right.
Qed.

Lemma collect_emits ids ptr h :
  forest h ptr → length ptr = length ids →
  collect ids ptr = Some (group (emits ids ptr) []).
Proof.
  intros Hf Hlen. unfold collect, emits. apply collect_fold.
  intros i [_ Hi]%elem_of_seq. simpl in Hi.
  destruct (find_root_total h ptr i Hf Hi) as (r & Hr & Hroot).
  exists r. split_and!; [|done|].
  - apply lookup_lt_is_Some_2. lia.
  - apply lookup_lt_is_Some_2. rewrite <- Hlen.
    apply Root_idem in Hroot. by eapply Root_start.
Qed.

Lemma elem_of_emits ids ptr h k x :
  forest h ptr → length ptr = length ids →
  (k, x) ∈ emits ids ptr ↔
  ∃ i r, ids !! i = Some x ∧ Root ptr i r ∧ ids !! r = Some k ∧ k ≠ x.
Proof.
  intros Hf Hlen. unfold emits. rewrite list_elem_of_omap. split.
  - intros (i & _ & He). unfold emit in He.
    destruct (ids !! i) as [x'|] eqn:Hx; simpl in He; [|done].
    destruct (find_root i ptr) as [r|] eqn:Hr; simpl in He; [|done].
    destruct (ids !! r) as [k'|] eqn:Hk; simpl in He; [|done].
    case_decide; simplify_eq.
    exists i, r. split_and!; [done| |done..]. by eapply find_root_fuel_Root.
  - intros (i & r & Hx & Hroot & Hk & Hne).
    exists i. split.
    + apply elem_of_seq. apply Root_start in Hroot. lia.
    + destruct (find_root_total h ptr i Hf (Root_start _ _ _ Hroot))
        as (r' & Hr' & Hroot').
      rewrite (Root_fun _ _ _ _ Hroot' Hroot) in Hr'.
      unfold emit. rewrite Hx, Hr'. simpl. rewrite Hk. simpl.
      by rewrite decide_True.
Qed.

Lemma emits_NoDup ids ptr : NoDup ids → NoDup (emits ids ptr).*2.
Proof.
  intros Hnd. unfold emits.
  assert (∀ l : list nat, (omap (emit ids ptr) l).*2
               = omap (fun i => snd <$> emit ids ptr i) l) as ->.
  { induction l as [|i l IH]; simpl; [done|].
    destruct (emit ids ptr i); simpl; [by f_equal|done]. }
  apply NoDup_omap_inj; [apply NoDup_seq|].
  assert (∀ i x, snd <$> emit ids ptr i = Some x → ids !! i = Some x) as Hx.
  { intros i x. unfold emit.
    destruct (ids !! i) as [x'|]; simpl; [|done].
    destruct (find_root i ptr) as [r|]; simpl; [|done].
    destruct (ids !! r) as [k'|]; simpl; [|done].
    case_decide; simpl; congruence. }
  intros i j x Hi%Hx Hj%Hx. by eapply NoDup_lookup.
Qed.

(** *** Reading the clusters *)

(** [k] is a key of the mapping. *)
Definition is_key (out : clusters) (k : Z) : Prop := is_Some (dict_get k out).

(** [x] is listed under the key [k]. *)
Definition member_of (out : clusters) (x k : Z) : Prop :=
  ∃ vs, dict_get k out = Some vs ∧ x ∈ vs.

(** [x] belongs to the cluster of root [k]: it is the root or one of its
    members. *)
Definition in_cluster (out : clusters) (k x : Z) : Prop :=
  is_key out k ∧ (x = k ∨ member_of out x k).

Lemma dict_get_elem d k vs : NoDup d.*1 → (k, vs) ∈ d ↔ dict_get k d = Some vs.
Proof.
  induction d as [|[k' vs'] t IH]; simpl.
  - intros _. rewrite elem_of_nil. split; [tauto|done].
  - intros [Hk' Ht]%NoDup_cons. rewrite elem_of_cons, (IH Ht).
    destruct (decide (k = k')) as [->|Hne].
    + split; [|intros [= ->]; by left].
      intros [[= ->]|Hin]; [done|]. apply IH in Hin; [|done].
      destruct Hk'. by apply (list_elem_of_fmap_2 fst) in Hin.
    + split; [intros [[= -> ->]|?]; done|tauto].
Qed.

Lemma member_of_group E x k : member_of (group E []) x k ↔ (k, x) ∈ E.
Proof.
  unfold member_of. rewrite dict_get_group_nil, <- elem_of_vals. split.
  - intros (vs & Hvs & Hx). destruct (vals k E); by simplify_eq.
  - intros Hx. exists (vals k E). split; [|done].
    destruct (vals k E); [by apply elem_of_nil in Hx|done].
Qed.

Lemma is_key_group E k : is_key (group E []) k ↔ ∃ x, (k, x) ∈ E.
Proof.
  unfold is_key. rewrite dict_get_group_nil. split.
  - intros [vs Hvs]. destruct (vals k E) as [|x l] eqn:Hv; [done|].
    exists x. apply elem_of_vals. rewrite Hv. by left.
  - intros [x Hx%elem_of_vals]. destruct (vals k E); [|done].
    by apply elem_of_nil in Hx.
Qed.

(** The whole run: the pair loop ends in a forest whose trees are the
    chains of pairs, and the output loop appends [emits]. *)
Lemma deduple_grouping_run pairs :
  ∃ ptr h, forest h ptr ∧ uf_inv pairs ptr
    ∧ (∀ l r li ri, (l, r) ∈ pairs →
         ptr_index (unique_ids pairs) l = Some li →
         ptr_index (unique_ids pairs) r = Some ri → same ptr li ri)
    ∧ deduple_grouping pairs = Some (group (emits (unique_ids pairs) ptr) []).
Proof.
  destruct (union_loop_inv pairs pairs _ ltac:(done) (uf_inv_init pairs))
    as (ptr & Hloop & Hinv & _ & Hsame).
  pose proof Hinv as [Hlen [h Hf] _].
  exists ptr, h. split_and!; [done..|].
  unfold deduple_grouping. fold (unique_ids pairs). rewrite Hloop. simpl.
  by eapply collect_emits.
Qed.

Section run.
Variables (pairs : pair_table) (ptr : list Z) (h : nat → nat).
Local Abbreviation ids := (unique_ids pairs).
Local Abbreviation out := (group (emits ids ptr) []).
Hypothesis Hf : forest h ptr.
Hypothesis Hinv : uf_inv pairs ptr.
Hypothesis Hpairs : ∀ l r li ri, (l, r) ∈ pairs →
  ptr_index ids l = Some li → ptr_index ids r = Some ri → same ptr li ri.

Lemma ids_NoDup : NoDup ids.
Proof. apply np_unique_NoDup. Qed.

Lemma ids_root i : (i < length ids)%nat → ∃ r, Root ptr i r.
Proof.
  intros Hi. rewrite <- (inv_length _ _ Hinv) in Hi.
  destruct (find_root_total h ptr i Hf Hi) as (r & _ & ?). eauto.
Qed.

Lemma connected_same x y :
  connected pairs x y →
  ∃ i j, ids !! i = Some x ∧ ids !! j = Some y ∧ same ptr i j.
Proof.
  induction 1 as [a b Hab|a b _ (i & j & ? & ? & ?)
                 |a b c _ (i & j & Hi & Hj & Hij) _ (j' & k & Hj' & Hk & Hjk)].
  - destruct (unique_ids_pair pairs a b Hab) as [Ha Hb].
    destruct (ptr_index_elem _ _ Ha) as [i Hi], (ptr_index_elem _ _ Hb) as [j Hj].
    exists i, j. split_and!; [by apply ptr_index_Some..|by eapply Hpairs].
  - exists j, i. split_and!; [done..|by apply same_sym].
  - rewrite <- (NoDup_lookup _ _ _ _ ids_NoDup Hj Hj') in Hjk.
    exists i, k. split_and!; [done..|by eapply same_trans].
Qed.

Lemma same_connected i j x y :
  ids !! i = Some x → ids !! j = Some y → x ≠ y → same ptr i j →
  connected pairs x y.
Proof.
  intros Hx Hy Hne (r & Hi & Hj).
  assert (is_Some (ids !! r)) as [z Hz].
  { apply lookup_lt_is_Some_2. rewrite <- (inv_length _ _ Hinv).
    apply Root_idem in Hi. by eapply Root_start. }
  destruct (Root_connected pairs ptr i r x z Hinv Hi Hx Hz) as [->|Hxz];
    destruct (Root_connected pairs ptr j r y z Hinv Hj Hy Hz) as [->|Hyz].
  - done.
  - by apply conn_sym.
  - done.
  - eapply conn_trans; [done|by apply conn_sym].
Qed.

Lemma member_of_out x k :
  member_of out x k ↔
  ∃ i r, ids !! i = Some x ∧ Root ptr i r ∧ ids !! r = Some k ∧ k ≠ x.
Proof.
  rewrite member_of_group. eapply elem_of_emits; [done|apply Hinv].
Qed.

Lemma is_key_out k :
  is_key out k ↔
  ∃ x i r, ids !! i = Some x ∧ Root ptr i r ∧ ids !! r = Some k ∧ k ≠ x.
Proof.
  rewrite is_key_group. split; intros [x Hx]; exists x;
    eapply elem_of_emits; eauto; apply Hinv.
Qed.

(** A key is the identifier of a root. *)
Lemma is_key_root k :
  is_key out k → ∃ r, ids !! r = Some k ∧ Root ptr r r.
Proof.
  intros (x & i & r & _ & Hroot & Hk & _)%is_key_out.
  exists r. split; [done|]. by eapply Root_idem.
Qed.

Lemma in_cluster_out k x :
  in_cluster out k x ↔
  is_key out k ∧ ∃ i r, ids !! i = Some x ∧ Root ptr i r ∧ ids !! r = Some k.
Proof.
  unfold in_cluster. split; intros [Hk Hx]; (split; [done|]).
  - destruct Hx as [->|(i & r & ? & ? & ? & _)%member_of_out]; [|eauto].
    destruct (is_key_root k Hk) as (r & ? & ?). eauto.
  - destruct Hx as (i & r & Hx & Hroot & Hr).
    destruct (decide (x = k)) as [->|Hne]; [by left|right].
    apply member_of_out. exists i, r. eauto.
Qed.

Lemma cluster_unique x k k' :
  in_cluster out k x → in_cluster out k' x → k = k'.
Proof.
  intros [_ (i & r & Hx & Hroot & Hk)]%in_cluster_out
         [_ (i' & r' & Hx' & Hroot' & Hk')]%in_cluster_out.
  rewrite <- (NoDup_lookup _ _ _ _ ids_NoDup Hx Hx') in Hroot'.
  rewrite <- (Root_fun _ _ _ _ Hroot Hroot') in Hk'. congruence.
Qed.

Lemma cluster_connected x y :
  x ≠ y →
  connected pairs x y ↔ ∃ k, in_cluster out k x ∧ in_cluster out k y.
Proof.
  intros Hne. split.
  - intros (i & j & Hx & Hy & r & Hi & Hj)%connected_same.
    assert (is_Some (ids !! r)) as [k Hk].
    { apply lookup_lt_is_Some_2. rewrite <- (inv_length _ _ Hinv).
      apply Root_idem in Hi. by eapply Root_start. }
    assert (is_key out k) as Hkey.
    { apply is_key_out. destruct (decide (k = x)) as [->|Hkx].
      - exists y, j, r. eauto.
      - exists x, i, r. eauto. }
    exists k. split; apply in_cluster_out; eauto 10.
  - intros (k & [_ (i & r & Hx & Hi & Hk)]%in_cluster_out
              & [_ (j & r' & Hy & Hj & Hk')]%in_cluster_out).
    rewrite <- (NoDup_lookup _ _ _ _ ids_NoDup Hk Hk') in Hj.
    apply (same_connected i j x y Hx Hy Hne). by exists r.
Qed.

Lemma cluster_covered x k :
  in_cluster out k x → ∃ y, y ≠ x ∧ connected pairs x y.
Proof.
  intros [Hkey (i & r & Hx & Hi & Hk)]%in_cluster_out.
  destruct (decide (x = k)) as [->|Hne].
  - apply is_key_out in Hkey as (y & j & r' & Hy & Hj & Hk' & Hky).
    exists y. split; [done|].
    rewrite <- (NoDup_lookup _ _ _ _ ids_NoDup Hk Hk') in Hj.
    apply (same_connected i j k y Hx Hy); [done|]. by exists r.
  - exists k. split; [done|].
    apply (same_connected i r x k Hx Hk Hne).
    exists r. split; [done|]. by eapply Root_idem.
Qed.

Lemma key_xor_member x y :
  x ≠ y → connected pairs x y →
  (is_key out x ∧ ∀ k, ¬ member_of out x k)
  ∨ (¬ is_key out x
     ∧ ∃ k, member_of out x k ∧ ∀ k', member_of out x k' → k' = k).
Proof.
  intros Hne Hconn.
  destruct (proj1 (cluster_connected x y Hne) Hconn) as (k & Hx & _).
  destruct (decide (x = k)) as [->|Hxk].
  - left. split; [apply Hx|].
    intros k' Hm.
    assert (in_cluster out k' k) as Hk'.
    { split; [|by right]. destruct Hm as (vs & Hvs & _). by eexists. }
    pose proof (cluster_unique _ _ _ Hx Hk') as <-.
    apply member_of_out in Hm as (? & ? & ? & ? & ? & ?). done.
  - right. destruct Hx as [Hkey [?|Hm]]; [done|]. split.
    + intros Hkx.
      assert (in_cluster out x x) as Hxx by (split; [done|by left]).
      pose proof (cluster_unique x k x (conj Hkey (or_intror Hm)) Hxx). done.
    + exists k. split; [done|]. intros k' Hm'.
      eapply cluster_unique; [|by split; [|right]].
      split; [|by right]. destruct Hm' as (vs & Hvs & _). by eexists.
Qed.

Lemma root_not_member k : ¬ member_of out k k.
Proof. by intros (? & ? & ? & ? & ? & ?)%member_of_out. Qed.

Lemma out_NoDup : NoDup out.*1 ∧ ∀ k vs, (k, vs) ∈ out → NoDup vs.
Proof.
  assert (NoDup out.*1) as Hnd by (apply group_NoDup; constructor).
  split; [done|]. intros k vs Hin%dict_get_elem; [|done].
  rewrite dict_get_group_nil in Hin.
  pose proof (vals_NoDup k _ (emits_NoDup ids ptr ids_NoDup)) as Hv.
  destruct (vals k (emits ids ptr)); by simplify_eq.
Qed.
End run.

(** *** The claims on [deduple_grouping] *)

(** C2. A union step hangs the smaller tree under the larger one: when the
    right root's counter is strictly smaller (more negative) than the left
    root's, the right root absorbs the left tree; otherwise, and so also
    when the two counters are equal, the left root stays the root and
    absorbs the right tree.  The absorbing root's counter becomes the sum,
    the absorbed root points to the absorbing one, nothing else changes.
    On the pairs [(1,2); (2,3); (4,5)] the clusters are
    [{1: [2, 3], 4: [5]}]. *)
Theorem union_by_size :
  (∀ ptr li ri lr rr sl sr,
     find_root li ptr = Some lr → find_root ri ptr = Some rr → lr ≠ rr →
     ptr !! lr = Some sl → ptr !! rr = Some sr →
     ∃ ptr', union_step ptr li ri = Some ptr' ∧ length ptr' = length ptr
       ∧ (sr < sl →
            ptr' !! rr = Some (sr + sl) ∧ ptr' !! lr = Some (Z.of_nat rr))
       ∧ (sl ≤ sr →
            ptr' !! lr = Some (sl + sr) ∧ ptr' !! rr = Some (Z.of_nat lr))
       ∧ (∀ i, i ≠ lr → i ≠ rr → ptr' !! i = ptr !! i))
  ∧ deduple_grouping [(1, 2); (2, 3); (4, 5)] = Some [(1, [2; 3]); (4, [5])].
Proof.
  split; [|reflexivity].
  intros ptr li ri lr rr sl sr Hl Hr Hne Hsl Hsr.
  pose proof (lookup_lt_Some _ _ _ Hsl) as Hlr.
  pose proof (lookup_lt_Some _ _ _ Hsr) as Hrr.
  unfold union_step. rewrite Hl, Hr. simpl.
  rewrite decide_False by done. rewrite Hsl, Hsr. simpl.
  destruct (Z.ltb_spec sr sl) as [Hlt|Hge]; simpl; rewrite Hsl, Hsr; simpl;
    eexists; (split; [reflexivity|]); rewrite !length_insert;
    (split; [done|]); split_and!; try lia.
  - intros _. split.
    + by rewrite list_lookup_insert_ne, list_lookup_insert_eq.
    + by rewrite list_lookup_insert_eq by (by rewrite length_insert).
  - intros i ? ?. by rewrite !list_lookup_insert_ne.
  - intros _. split.
    + by rewrite list_lookup_insert_ne, list_lookup_insert_eq.
    + by rewrite list_lookup_insert_eq by (by rewrite length_insert).
  - intros i ? ?. by rewrite !list_lookup_insert_ne.
Qed.

(** The claim at two singleton trees: the tie leaves the left root. *)
Lemma union_by_size_witness :
  ∃ ptr', union_step [-1; -1] 0 1 = Some ptr'
    ∧ ptr' !! 0%nat = Some (-2) ∧ ptr' !! 1%nat = Some 0.
Proof.
  destruct (proj1 union_by_size [-1; -1] 0%nat 1%nat 0%nat 1%nat (-1) (-1))
    as (ptr' & Hstep & _ & _ & Htie & _);
    [reflexivity|reflexivity|lia|reflexivity|reflexivity|].
  exists ptr'. split; [exact Hstep|]. apply Htie. lia.
Defined.

(** C1, as far as the code goes.  For every list of confirmed pairs with
    int64 identifiers [deduple_grouping] returns a mapping [out] such that
    - two distinct identifiers are in the same cluster exactly when a chain
      of confirmed pairs connects them;
    - no identifier is in two clusters;
    - an identifier that is paired with a different identifier is either a
      root key and in no list, or no key and in the list of exactly one root;
    - a root is never listed among its own members, the keys are distinct
      and no list repeats an identifier;
    - every identifier of the mapping is connected to a different one (an
      identifier whose only pairs are self-pairs is in no cluster);
    - the mapping, with its chosen roots, is a function of the pair list. *)
Theorem deduple_grouping_clusters (pairs : pair_table) :
  int64_ids pairs →
  ∃ out, deduple_grouping pairs = Some out
  ∧ (∀ x y, x ≠ y →
       connected pairs x y ↔ ∃ k, in_cluster out k x ∧ in_cluster out k y)
  ∧ (∀ x k k', in_cluster out k x → in_cluster out k' x → k = k')
  ∧ (∀ x y, x ≠ y → (x, y) ∈ pairs ∨ (y, x) ∈ pairs →
       (is_key out x ∧ ∀ k, ¬ member_of out x k)
       ∨ (¬ is_key out x
          ∧ ∃ k, member_of out x k ∧ ∀ k', member_of out x k' → k' = k))
  ∧ (∀ k, ¬ member_of out k k)
  ∧ NoDup out.*1
  ∧ (∀ k vs, (k, vs) ∈ out → NoDup vs)
  ∧ (∀ x k, in_cluster out k x → ∃ y, y ≠ x ∧ connected pairs x y)
  ∧ (∀ out', deduple_grouping pairs = Some out' → out' = out).
Proof.
  intros _.
  destruct (deduple_grouping_run pairs) as (ptr & h & Hf & Hinv & Hsame & Hrun).
  eexists. split; [exact Hrun|]. split_and!.
  - intros x y. by eapply cluster_connected.
  - intros x k k'. by eapply cluster_unique.
  - intros x y Hne Hxy. eapply (key_xor_member pairs ptr h Hf Hinv Hsame x y Hne).
    destruct Hxy; [|apply conn_sym]; by constructor.
  - apply root_not_member with h; [done|done].
  - apply (proj1 (out_NoDup pairs ptr)).
  - apply (proj2 (out_NoDup pairs ptr)).
  - intros x k. by eapply cluster_covered.
  - intros out'. rewrite Hrun. congruence.
Qed.

(** The claim at the pairs [(1,2); (2,3); (4,5)]: 1 and 3 share a cluster. *)
Lemma deduple_grouping_clusters_witness :
  ∃ out, deduple_grouping [(1, 2); (2, 3); (4, 5)] = Some out
    ∧ ∃ k, in_cluster out k 1 ∧ in_cluster out k 3.
Proof.
  destruct (deduple_grouping_clusters [(1, 2); (2, 3); (4, 5)])
    as (out & Hout & Hconn & _).
  { repeat constructor; simpl; lia. }
  exists out. split; [exact Hout|].
  apply (Hconn 1 3); [lia|].
  apply conn_trans with 2; apply conn_pair.
  - apply list_elem_of_here.
  - apply list_elem_of_further, list_elem_of_here.
Defined.

(** C1 as it is written fails on a self-pair: identifier 1 appears in a
    confirmed pair, yet it is neither a key nor a member of the result. *)
Lemma deduple_grouping_self_pair :
  deduple_grouping [(1, 1)] = Some []
  ∧ 1 ∈ unique_ids [(1, 1)]
  ∧ ¬ (is_key [] 1 ∨ ∃ k, member_of [] 1 k).
Proof.
  split_and!.
  - reflexivity.
  - apply list_elem_of_here.
  - intros [[vs Hvs]|(k & vs & Hvs & _)]; discriminate.
Qed.

(** *** More on the clusters *)

Lemma sorted_lookup_lt (l : list Z) i j x y :
  StronglySorted Z.lt l → (i < j)%nat →
  l !! i = Some x → l !! j = Some y → x < y.
Proof.
  intros Hs. revert i j. induction Hs as [|z t Hs IH Hall]; intros i j Hij.
  - done.
  - destruct i as [|i], j as [|j]; simpl; try lia.
    + intros [= <-] Hy. eapply Forall_forall in Hall; [exact Hall|].
      by eapply list_elem_of_lookup_2.
    + apply IH. lia.
Qed.

Lemma sorted_omap_seq (g : nat → option Z) (l : list nat) :
  StronglySorted lt l →
  (∀ i j x y, (i < j)%nat → g i = Some x → g j = Some y → x < y) →
  StronglySorted Z.lt (omap g l).
Proof.
  intros Hs Hg. induction Hs as [|i t Hs IH Hall]; simpl; [constructor|].
  destruct (g i) as [x|] eqn:Hx; [|done].
  constructor; [done|].
  apply Forall_forall. intros y (j & Hj & Hy)%list_elem_of_omap.
  eapply Hg; [|exact Hx|exact Hy]. by eapply Forall_forall in Hall.
Qed.

Lemma seq_sorted a n : StronglySorted lt (seq a n).
Proof.
  revert a. induction n as [|n IH]; intros a; simpl; constructor; [done|].
  apply Forall_forall. intros j Hj%elem_of_seq. lia.
Qed.

Lemma sorted_filter_fmap {A} (P : A → Prop) `{∀ x, Decision (P x)}
  (f : A → Z) (l : list A) :
  StronglySorted Z.lt (f <$> l) → StronglySorted Z.lt (f <$> filter P l).
Proof.
  induction l as [|a l IH]; [done|].
  rewrite fmap_cons. intros [Hall Hs]%StronglySorted_cons.
  rewrite filter_cons. case_decide; [|by apply IH].
  rewrite fmap_cons. apply StronglySorted_cons. split; [|by apply IH].
  apply Forall_forall. intros y (b & -> & [_ Hb]%list_elem_of_filter)%list_elem_of_fmap.
  eapply Forall_forall in Hall; [exact Hall|]. by apply list_elem_of_fmap_2.
Qed.

Lemma emits_sorted ids ptr :
  StronglySorted Z.lt ids → StronglySorted Z.lt (emits ids ptr).*2.
Proof.
  intros Hs. unfold emits.
  assert (∀ l : list nat, (omap (emit ids ptr) l).*2
               = omap (fun i => snd <$> emit ids ptr i) l) as ->.
  { induction l as [|i l IH]; simpl; [done|].
    destruct (emit ids ptr i); simpl; [by f_equal|done]. }
  apply sorted_omap_seq; [apply seq_sorted|].
  assert (∀ i x, snd <$> emit ids ptr i = Some x → ids !! i = Some x) as Hx.
  { intros i x. unfold emit.
    destruct (ids !! i) as [x'|]; simpl; [|done].
    destruct (find_root i ptr) as [r|]; simpl; [|done].
    destruct (ids !! r) as [k'|]; simpl; [|done].
    case_decide; simpl; congruence. }
  intros i j x y Hij Hi%Hx Hj%Hx. by eapply sorted_lookup_lt.
Qed.

(** Every list of the mapping is non-empty and in strictly ascending order
    of the identifiers: a cluster has at least two identifiers, and its
    members come out sorted whatever the order of the pairs. *)
Theorem deduple_grouping_lists (pairs : pair_table) out k vs :
  deduple_grouping pairs = Some out → (k, vs) ∈ out →
  vs ≠ [] ∧ StronglySorted Z.lt vs.
Proof.
  destruct (deduple_grouping_run pairs) as (ptr & h & Hf & Hinv & Hsame & Hrun).
  rewrite Hrun. intros [= <-] Hin.
  apply dict_get_elem in Hin; [|apply group_NoDup; constructor].
  rewrite dict_get_group_nil in Hin.
  pose proof (emits_sorted (unique_ids pairs) ptr (np_unique_sorted _)) as Hs.
  apply (sorted_filter_fmap (fun e => e.1 = k) snd) in Hs.
  fold (vals k (emits (unique_ids pairs) ptr)) in Hs.
  destruct (vals k (emits (unique_ids pairs) ptr)); by simplify_eq.
Qed.

(** The property at the pairs [(5,3); (3,9); (9,1)]. *)
Lemma deduple_grouping_lists_witness :
  deduple_grouping [(5, 3); (3, 9); (9, 1)] = Some [(5, [1; 3; 9])]
  ∧ StronglySorted Z.lt [1; 3; 9].
Proof.
  split; [reflexivity|].
  eapply (deduple_grouping_lists [(5, 3); (3, 9); (9, 1)] _ 5); [reflexivity|].
  apply list_elem_of_here.
Defined.

Lemma connected_edges pairs pairs' x y :
  (∀ a b, (a, b) ∈ pairs → (a, b) ∈ pairs' ∨ (b, a) ∈ pairs') →
  connected pairs x y → connected pairs' x y.
Proof.
  intros Hsub. induction 1 as [a b Hab| |].
  - destruct (Hsub a b Hab); [by constructor|by apply conn_sym, conn_pair].
  - by apply conn_sym.
  - by eapply conn_trans.
Qed.

Lemma deduple_grouping_same_cluster pairs out x y :
  deduple_grouping pairs = Some out → x ≠ y →
  connected pairs x y ↔ ∃ k, in_cluster out k x ∧ in_cluster out k y.
Proof.
  destruct (deduple_grouping_run pairs) as (ptr & h & Hf & Hinv & Hsame & Hrun).
  rewrite Hrun. intros [= <-]. by eapply cluster_connected.
Qed.

(** Which identifiers share a cluster depends only on the set of confirmed
    pairs read as unordered pairs: reordering the pairs, repeating some or
    swapping the two sides of some gives the same partition (the chosen
    roots may differ). *)
Theorem deduple_grouping_order_free (pairs pairs' : pair_table) out out' :
  (∀ a b, ((a, b) ∈ pairs ∨ (b, a) ∈ pairs)
          ↔ ((a, b) ∈ pairs' ∨ (b, a) ∈ pairs')) →
  deduple_grouping pairs = Some out → deduple_grouping pairs' = Some out' →
  ∀ x y, x ≠ y →
    (∃ k, in_cluster out k x ∧ in_cluster out k y)
    ↔ (∃ k', in_cluster out' k' x ∧ in_cluster out' k' y).
Proof.
  intros Hedges Hout Hout' x y Hne.
  rewrite <- (deduple_grouping_same_cluster pairs out x y Hout Hne).
  rewrite <- (deduple_grouping_same_cluster pairs' out' x y Hout' Hne).
  split; apply connected_edges; intros a b Hab.
  - apply Hedges. by left.
  - apply Hedges. by left.
Qed.

(** The property at [(1,2); (2,3)] and [(3,2); (2,1)]: the roots differ,
    the partition does not. *)
Lemma deduple_grouping_order_free_witness :
  deduple_grouping [(1, 2); (2, 3)] = Some [(1, [2; 3])]
  ∧ deduple_grouping [(3, 2); (2, 1)] = Some [(3, [1; 2])]
  ∧ ((∃ k, in_cluster [(1, [2; 3])] k 1 ∧ in_cluster [(1, [2; 3])] k 3)
     ↔ (∃ k', in_cluster [(3, [1; 2])] k' 1 ∧ in_cluster [(3, [1; 2])] k' 3)).
Proof.
  split_and!; [reflexivity..|].
  apply (deduple_grouping_order_free [(1, 2); (2, 3)] [(3, 2); (2, 1)]);
    [|reflexivity|reflexivity|lia].
  intros a b. rewrite !elem_of_cons, !elem_of_nil.
  split; intros [[[= -> ->]|[[= -> ->]|[]]]|[[= -> ->]|[[= -> ->]|[]]]]; tauto.
Defined.

Lemma sorted_lt_ext (l l' : list Z) :
  StronglySorted Z.lt l → StronglySorted Z.lt l' →
  (∀ x, x ∈ l ↔ x ∈ l') → l = l'.
Proof.
  intros Hs. revert l'. induction Hs as [|a t Hs IH Ha]; intros l' Hs' Hext.
  - destruct l' as [|b t']; [done|].
    exfalso. eapply elem_of_nil, Hext. left.
  - destruct Hs' as [|b t' Hs' Hb].
    { exfalso. eapply elem_of_nil, Hext. left. }
    assert (a = b) as <-.
    { assert (a ∈ b :: t') as [->|Hat]%elem_of_cons by (apply Hext; left);
        [done|].
      assert (b ∈ a :: t) as [->|Hbt]%elem_of_cons by (apply Hext; left);
        [done|].
      eapply Forall_forall in Ha, Hb; [|exact Hat|exact Hbt]. lia. }
    f_equal. apply IH; [done|]. intros x. split; intros Hx.
    + assert (x ∈ a :: t') as [->|?]%elem_of_cons by (apply Hext; by right);
        [|done].
      eapply Forall_forall in Ha; [|exact Hx]. lia.
    + assert (x ∈ a :: t) as [->|?]%elem_of_cons by (apply Hext; by right);
        [|done].
      eapply Forall_forall in Hb; [|exact Hx]. lia.
Qed.

Lemma np_unique_ext l l' : (∀ x, x ∈ l ↔ x ∈ l') → np_unique l = np_unique l'.
Proof.
  intros Hext. apply sorted_lt_ext; [apply np_unique_sorted..|].
  intros x. by rewrite !np_unique_elem.
Qed.

Lemma union_loop_app ids pairs1 pairs2 ptr :
  union_loop ids (pairs1 ++ pairs2) ptr
  = union_loop ids pairs1 ptr ≫= union_loop ids pairs2.
Proof.
  revert ptr. induction pairs1 as [|[l r] pairs1 IH]; intros ptr; simpl; [done|].
  destruct (ptr_index ids l); simpl; [|done].
  destruct (ptr_index ids r); simpl; [|done].
  destruct (union_step ptr n n0); simpl; [|done]. apply IH.
Qed.

(** A confirmed pair between two identifiers that the earlier pairs already
    connect (or a self-pair of an identifier already seen), appended to the
    list, changes nothing: same clusters, same chosen roots. *)
Theorem deduple_grouping_redundant_pair (pairs : pair_table) a b :
  connected pairs a b →
  deduple_grouping (pairs ++ [(a, b)]) = deduple_grouping pairs.
Proof.
  intros Hconn.
  destruct (connected_ids pairs a b Hconn) as [Ha Hb].
  assert (unique_ids (pairs ++ [(a, b)]) = unique_ids pairs) as Hids.
  { unfold unique_ids. apply np_unique_ext. intros x.
    rewrite !map_app. simpl. rewrite !elem_of_app, !list_elem_of_singleton.
    unfold unique_ids in Ha, Hb.
    rewrite np_unique_elem, elem_of_app in Ha, Hb.
    split; [|tauto]. intros [[?| ->]|[?| ->]]; tauto. }
  unfold deduple_grouping. fold (unique_ids (pairs ++ [(a, b)])).
  fold (unique_ids pairs). rewrite Hids, union_loop_app.
  destruct (union_loop_inv pairs pairs _ ltac:(done) (uf_inv_init pairs))
    as (ptr & Hloop & Hinv & _ & Hsame).
  rewrite Hloop. simpl.
  pose proof Hinv as [Hlen [h Hf] _].
  destruct (connected_same pairs ptr Hsame a b Hconn)
    as (i & j & Hi & Hj & r & Hri & Hrj).
  rewrite (ptr_index_lookup (unique_ids pairs) a i (ids_NoDup pairs) Hi).
  rewrite (ptr_index_lookup (unique_ids pairs) b j (ids_NoDup pairs) Hj). simpl.
  destruct (find_root_total h ptr i Hf (Root_start _ _ _ Hri)) as (r1 & Hf1 & H1).
  destruct (find_root_total h ptr j Hf (Root_start _ _ _ Hrj)) as (r2 & Hf2 & H2).
  unfold union_step. rewrite Hf1, Hf2. simpl.
  rewrite (Root_fun _ _ _ _ H1 Hri), (Root_fun _ _ _ _ H2 Hrj).
  by rewrite decide_True.
Qed.

(** The property at [(1,2); (2,3)] with the pair [(3,1)] appended. *)
Lemma deduple_grouping_redundant_pair_witness :
  deduple_grouping ([(1, 2); (2, 3)] ++ [(3, 1)])
  = deduple_grouping [(1, 2); (2, 3)].
Proof.
  apply deduple_grouping_redundant_pair.
  apply conn_sym, conn_trans with 2; apply conn_pair.
  - apply list_elem_of_here.
  - apply list_elem_of_further, list_elem_of_here.
Defined.

End UnionFind.

(* ===================================================================== *)
(** ** [utils.linkage_grouping] *)
(* ===================================================================== *)

Module Grouping.
Import UnionFind.
Local Open Scope Z_scope.

(** The rows of the [left] and [right] columns of the confirmed pairs. *)
Definition pair_table : Type := list (Z * Z).

(** The [right] values of the rows whose [left] is [l], in row order. *)
Definition rights_of (pairs : list (Z * Z)) (l : Z) : list Z :=
  (filter (fun p => p.1 = l) pairs).*2.

(** How many rows pair [l] with [r]. *)
Definition match_count (pairs : list (Z * Z)) (l r : Z) : nat :=
  length (filter (fun p => p = (l, r)) pairs).

(** A stable sort by descending count: [x], which precedes everything in
    [sorted], goes in front of the first entry whose count is not larger. *)
Fixpoint insert_desc (c : Z → nat) (x : Z) (sorted : list Z) : list Z :=
  match sorted with
  | [] => [x]
  | y :: t =>
      if (c y <=? c x)%nat then x :: y :: t else y :: insert_desc c x t
  end.

Definition stable_sort_desc (c : Z → nat) (l : list Z) : list Z :=
  foldr (insert_desc c) [] l.

(** [list(pairs.groupby("left")["right"].value_counts().index)].

    This is pandas, not code of the repository.  With the defaults
    ([sort=True], [ascending=False]) the groups come in ascending order of
    the key ([groupby] sorts its keys) and inside a group a larger count
    comes first.  The order among equal counts is not the same in every
    version of the library.  This definition is the order of pandas 1.x:
    the distinct values laid out in ascending order (factorized with
    [sort=True]), then a stable sort on the negated counts, so that equal
    counts stay in ascending order of the value.  Nothing below that speaks
    of the order among equal counts is stated of this definition alone: see
    [value_counts_index_by]. *)
Definition value_counts_index (pairs : pair_table) : list (Z * Z) :=
  flat_map
    (fun l => map (pair l)
                (stable_sort_desc (match_count pairs l)
                   (np_unique (rights_of pairs l))))
    (np_unique (map fst pairs)).

(** [for k, v in pairs_t: result.setdefault(k, []).append(v)]. *)
Definition linkage_grouping (pairs : pair_table) : clusters :=
  foldl (fun result kv => dict_append kv.1 kv.2 result) []
        (value_counts_index pairs).

Example linkage_grouping_ex1 :
  linkage_grouping [(1, 1); (1, 2); (1, 1)] = [(1, [1; 2])].
Proof. reflexivity. Qed.

Example linkage_grouping_ex2 :
  linkage_grouping [(7, 5); (3, 9); (7, 2); (7, 5); (3, 4); (7, 8)]
  = [(3, [4; 9]); (7, [5; 2; 8])].
Proof. reflexivity. Qed.

(** The order the claim words: the distinct values in order of first
    occurrence, then by descending count (stable). *)
Fixpoint first_occurrences (l : list Z) : list Z :=
  match l with
  | [] => []
  | x :: t => x :: filter (fun y => y ≠ x) (first_occurrences t)
  end.

Definition first_occurrence_order (pairs : pair_table) (l : Z) : list Z :=
  stable_sort_desc (match_count pairs l) (first_occurrences (rights_of pairs l)).

(** The order [value_counts_index] gives: larger count first, equal counts
    by ascending right identifier. *)
Definition count_order (c : Z → nat) (x y : Z) : Prop :=
  (c y < c x)%nat ∨ (c x = c y ∧ x < y).

Lemma insert_desc_elem c x y l : y ∈ insert_desc c x l ↔ y = x ∨ y ∈ l.
Proof.
  induction l as [|z t IH]; simpl.
  - rewrite list_elem_of_singleton, elem_of_nil. tauto.
  - destruct (c z <=? c x)%nat.
    + by rewrite elem_of_cons.
    + rewrite !elem_of_cons, IH. tauto.
Qed.

Lemma stable_sort_desc_elem c x l : x ∈ stable_sort_desc c l ↔ x ∈ l.
Proof.
  induction l as [|y t IH]; simpl; [done|].
  by rewrite insert_desc_elem, IH, elem_of_cons.
Qed.

Lemma insert_desc_sorted c x t :
  StronglySorted (count_order c) t → Forall (fun y => x < y) t →
  StronglySorted (count_order c) (insert_desc c x t).
Proof.
  induction 1 as [|y t Hs IH Hall]; intros Hlt; simpl.
  - repeat constructor.
  - apply Forall_cons in Hlt as [Hxy Hlt].
    destruct (Nat.leb_spec (c y) (c x)) as [Hle|Hgt].
    + constructor; [by constructor|].
      assert (count_order c x y) as Hy by (unfold count_order; lia).
      constructor; [done|].
      apply Forall_forall. intros z Hz.
      eapply Forall_forall in Hall, Hlt; [|exact Hz..].
      unfold count_order in *. lia.
    + constructor; [by apply IH|].
      apply Forall_forall. intros z [->|Hz]%insert_desc_elem.
      * unfold count_order. lia.
      * by eapply Forall_forall in Hall.
Qed.

Lemma stable_sort_desc_sorted c l :
  StronglySorted Z.lt l → StronglySorted (count_order c) (stable_sort_desc c l).
Proof.
  induction 1 as [|x t Hs IH Hall]; simpl; [constructor|].
  apply insert_desc_sorted; [done|].
  apply Forall_forall. intros y Hy%stable_sort_desc_elem.
  by eapply Forall_forall in Hall.
Qed.

Lemma rights_of_elem pairs l r : r ∈ rights_of pairs l ↔ (l, r) ∈ pairs.
Proof.
  unfold rights_of. rewrite list_elem_of_fmap. split.
  - intros ([l' r'] & -> & [Hl Hin]%list_elem_of_filter). simpl in *. by subst.
  - intros Hin. exists (l, r). split; [done|]. by apply list_elem_of_filter.
Qed.

Lemma vals_app k E1 E2 : vals k (E1 ++ E2) = vals k E1 ++ vals k E2.
Proof. unfold vals. by rewrite filter_app, fmap_app. Qed.

Lemma vals_same k xs : vals k (map (pair k) xs) = xs.
Proof.
  unfold vals. induction xs as [|x xs IH]; [done|].
  simpl. rewrite filter_cons, decide_True by done. simpl. by f_equal.
Qed.

Lemma vals_other k k' xs : k' ≠ k → vals k (map (pair k') xs) = [].
Proof.
  intros Hne. unfold vals. induction xs as [|x xs IH]; [done|].
  simpl. by rewrite filter_cons, decide_False.
Qed.

Lemma vals_flat_map k (f : Z → list Z) L :
  NoDup L →
  vals k (flat_map (fun l => map (pair l) (f l)) L)
  = if decide (k ∈ L) then f k else [].
Proof.
  induction 1 as [|l L Hl HL IH].
  - rewrite decide_False; [done|apply not_elem_of_nil].
  - change (flat_map (fun l => map (pair l) (f l)) (l :: L))
      with (map (pair l) (f l) ++ flat_map (fun l => map (pair l) (f l)) L).
    rewrite vals_app, IH. destruct (decide (l = k)) as [->|Hne].
    + rewrite vals_same, decide_False by done.
      rewrite decide_True by left. apply app_nil_r.
    + rewrite vals_other by done. rewrite app_nil_l.
      destruct (decide (k ∈ L)) as [Hin|Hnin].
      * rewrite decide_True; [done|by right].
      * rewrite decide_False; [done|].
        rewrite elem_of_cons. intros [?|?]; by simplify_eq.
Qed.

Lemma linkage_grouping_get pairs l :
  dict_get l (linkage_grouping pairs)
  = if decide (l ∈ pairs.*1)
    then Some (stable_sort_desc (match_count pairs l)
                 (np_unique (rights_of pairs l)))
    else None.
Proof.
  unfold linkage_grouping. fold (group (value_counts_index pairs) []).
  rewrite dict_get_group_nil. unfold value_counts_index.
  rewrite (vals_flat_map l
    (fun l => stable_sort_desc (match_count pairs l) (np_unique (rights_of pairs l))))
    by apply np_unique_NoDup.
  destruct (decide (l ∈ pairs.*1)) as [Hin|Hnin].
  - rewrite decide_True by (by apply np_unique_elem).
    apply list_elem_of_fmap in Hin as ([l' r] & -> & Hin). simpl.
    assert (r ∈ stable_sort_desc (match_count pairs l')
                  (np_unique (rights_of pairs l'))) as Hr.
    { by apply stable_sort_desc_elem, np_unique_elem, rights_of_elem. }
    destruct (stable_sort_desc _ _); [by apply elem_of_nil in Hr|done].
  - rewrite decide_False; [done|]. by rewrite np_unique_elem.
Qed.

(** *** The order among equal counts *)

(** Line 322 is one call into pandas, and the code adds no order of its
    own: which of two right identifiers with the same count comes first is
    whatever the installed pandas returns.  [value_counts_index] above is
    the stable order of pandas 1.x; later versions keep the values in order
    of first occurrence.  So the order inside a group is taken as a
    parameter: [order pairs l] stands for the order in which the installed
    pandas returns the distinct [right] values of the group [l] of the
    table [pairs]. *)
Definition value_counts_index_by (order : list (Z * Z) → Z → list Z)
  (pairs : list (Z * Z)) : list (Z * Z) :=
  flat_map (fun l => map (pair l) (order pairs l)) (np_unique (map fst pairs)).

(** [linkage_grouping] on top of that order. *)
Definition linkage_grouping_by (order : list (Z * Z) → Z → list Z)
  (pairs : list (Z * Z)) : clusters :=
  foldl (fun result kv => dict_append kv.1 kv.2 result) []
        (value_counts_index_by order pairs).


(** Equal counts in ascending order of the value: the order of
    [value_counts_index]. *)
Definition ties_ascending (pairs : list (Z * Z)) (l : Z) : list Z :=
  stable_sort_desc (match_count pairs l) (np_unique (rights_of pairs l)).

(** Equal counts in order of first occurrence: the order the claim words. *)
Definition ties_first_seen (pairs : list (Z * Z)) (l : Z) : list Z :=
  first_occurrence_order pairs l.









(** What tells the two apart: [ties_ascending] leaves equal counts in
    ascending order of the value. *)
Lemma ties_ascending_order pairs l :
  StronglySorted (count_order (match_count pairs l)) (ties_ascending pairs l).
Proof. apply stable_sort_desc_sorted, np_unique_sorted. Qed.

(** [linkage_grouping] is the instance with the ascending order. *)
Lemma linkage_grouping_ascending (pairs : pair_table) :
  linkage_grouping pairs = linkage_grouping_by ties_ascending pairs.
Proof. reflexivity. Qed.







(** Under the order of first occurrence the same table gives the order the
    claim words: the code does not decide between the two. *)
Example linkage_grouping_tie_first_seen :
  linkage_grouping_by ties_first_seen [(1, 12); (1, 11)] = [(1, [12; 11])].
Proof. reflexivity. Qed.

(** *** The keys of the grouping *)

Lemma dict_append_fresh k v (d : clusters) :
  k ∉ d.*1 → dict_append k v d = d ++ [(k, [v])].
Proof.
  induction d as [|[k' vs] t IH]; simpl; [done|].
  rewrite not_elem_of_cons. intros [Hne Hk].
  rewrite decide_False by done. by rewrite IH.
Qed.

Lemma dict_append_last k v vs (d : clusters) :
  k ∉ d.*1 → dict_append k v (d ++ [(k, vs)]) = d ++ [(k, vs ++ [v])].
Proof.
  induction d as [|[k' vs'] t IH]; simpl.
  - intros _. by rewrite decide_True.
  - rewrite not_elem_of_cons. intros [Hne Hk].
    rewrite decide_False by done. by rewrite IH.
Qed.

Lemma group_same_key k xs vs (d : clusters) :
  k ∉ d.*1 →
  group (map (pair k) xs) (d ++ [(k, vs)]) = d ++ [(k, vs ++ xs)].
Proof.
  intros Hk. revert vs. induction xs as [|x xs IH]; intros vs.
  - by rewrite app_nil_r.
  - change (group (map (pair k) (x :: xs)) (d ++ [(k, vs)]))
      with (group (map (pair k) xs) (dict_append k x (d ++ [(k, vs)]))).
    rewrite dict_append_last by done. rewrite IH.
    by rewrite <- app_assoc.
Qed.

Lemma group_fresh_key k xs (d : clusters) :
  k ∉ d.*1 → xs ≠ [] → group (map (pair k) xs) d = d ++ [(k, xs)].
Proof.
  intros Hk Hxs. destruct xs as [|x xs]; [done|].
  change (group (map (pair k) (x :: xs)) d)
    with (group (map (pair k) xs) (dict_append k x d)).
  rewrite dict_append_fresh by done. by rewrite group_same_key.
Qed.

Lemma group_flat_map (f : Z → list Z) L (d : clusters) :
  NoDup L → (∀ l, l ∈ L → l ∉ d.*1) → (∀ l, l ∈ L → f l ≠ []) →
  group (flat_map (fun l => map (pair l) (f l)) L) d
  = d ++ map (fun l => (l, f l)) L.
Proof.
  intros Hnd. revert d. induction Hnd as [|l L Hl HL IH]; intros d Hd Hf.
  - simpl. by rewrite app_nil_r.
  - change (flat_map (fun l => map (pair l) (f l)) (l :: L))
      with (map (pair l) (f l) ++ flat_map (fun l => map (pair l) (f l)) L).
    unfold group. rewrite foldl_app. fold (group (map (pair l) (f l)) d).
    rewrite group_fresh_key by (apply Hd || apply Hf; left).
    match goal with |- foldl ?g ?a ?b = _ => change (foldl g a b) with (group b a) end.
    rewrite IH.
    + simpl. by rewrite <- app_assoc.
    + intros l' Hl'. rewrite fmap_app, elem_of_app. simpl.
      rewrite list_elem_of_singleton. intros [?| ->]; [|done].
      eapply Hd; [by right|done].
    + intros l' Hl'. apply Hf. by right.
Qed.

(** The fold over the index is the list of the groups, one per left
    identifier. *)
Lemma linkage_grouping_groups (pairs : pair_table) :
  linkage_grouping pairs
  = map (fun l => (l, stable_sort_desc (match_count pairs l)
                        (np_unique (rights_of pairs l))))
        (np_unique (map fst pairs)).
Proof.
  unfold linkage_grouping. fold (group (value_counts_index pairs) []).
  unfold value_counts_index.
  rewrite (group_flat_map
    (fun l => stable_sort_desc (match_count pairs l) (np_unique (rights_of pairs l))));
    [done|apply np_unique_NoDup|intros; apply not_elem_of_nil|].
  intros l Hl. apply (proj1 (np_unique_elem _ _)) in Hl.
  apply list_elem_of_fmap in Hl as ([l' r] & -> & Hin). simpl.
  assert (r ∈ stable_sort_desc (match_count pairs l')
                (np_unique (rights_of pairs l'))) as Hr.
  { by apply stable_sort_desc_elem, np_unique_elem, rights_of_elem. }
  intros Heq. rewrite Heq in Hr. by apply elem_of_nil in Hr.
Qed.

(** The keys of the grouping are the left identifiers of the table, each
    once, in strictly ascending order, and no key has an empty list. *)
Theorem linkage_grouping_keys (pairs : pair_table) :
  StronglySorted Z.lt (linkage_grouping pairs).*1
  ∧ (∀ l, l ∈ (linkage_grouping pairs).*1 ↔ l ∈ pairs.*1)
  ∧ (∀ l rs, (l, rs) ∈ linkage_grouping pairs → rs ≠ []).
Proof.
  assert ((linkage_grouping pairs).*1 = np_unique (map fst pairs)) as Hkeys.
  { rewrite linkage_grouping_groups.
    change (map ?f ?l).*1 with (fst <$> (f <$> l)).
    rewrite <- list_fmap_compose. apply list_fmap_id. }
  split_and!.
  - rewrite Hkeys. apply np_unique_sorted.
  - intros l. rewrite Hkeys. apply np_unique_elem.
  - intros l rs Hin.
    assert (l ∈ pairs.*1) as Hl.
    { apply (list_elem_of_fmap_2 fst) in Hin. simpl in Hin.
      rewrite Hkeys in Hin. by apply (proj1 (np_unique_elem _ _)) in Hin. }
    apply dict_get_elem in Hin.
    + rewrite linkage_grouping_get, decide_True in Hin by done.
      apply list_elem_of_fmap in Hl as ([l' r] & -> & Hp).
      assert (r ∈ rs) as Hr.
      { simplify_eq.
        by apply stable_sort_desc_elem, np_unique_elem, rights_of_elem. }
      intros ->. by apply elem_of_nil in Hr.
    + rewrite Hkeys. apply np_unique_NoDup.
Qed.

End Grouping.

(* ===================================================================== *)
(** ** [Deduple.perform_linkage] and [PLinkage.perform_linkage] *)
(* ===================================================================== *)

Module Matching.
Import SplitList.

(** *** float64 scores *)

Definition f_zero : spec_float := Eval cbv in Prim2SF 0%float.
Definition f_one : spec_float := Eval cbv in Prim2SF 1%float.
Definition f_seven : spec_float := Eval cbv in Prim2SF 7%float.
Definition f_half : spec_float := Eval cbv in Prim2SF 0.5%float.
Definition f_two : spec_float := Eval cbv in Prim2SF 2%float.

(** [pandas.isna] on a float. *)
Definition is_nan (x : spec_float) : bool :=
  match x with S754_nan => true | _ => false end.

(** *** Frames and the matching object *)

(** A row of the frame that [compare_cl.compute] returns: the candidate
    pair it is indexed by and one score per comparison rule. *)
Definition score_row : Type := (Z * Z) * list spec_float.

(** A row of the merged comparison matrix: the score columns followed by
    the rank columns of [name_ranks]. *)
Record matrix_row : Type := {
  idx : Z * Z;
  scores : list spec_float;
  ranks : list spec_float
}.

(** [left_df[rank_colnames]]: the identifier of each row of [left_df] and
    its two rank columns. *)
Definition rank_table : Type := list (Z * list spec_float).

Inductive exn : Type :=
| TypeError | AttributeError | KeyError | ValueError
| LibraryError (msg : string).

Inductive result (A : Type) : Type :=
| Ok (a : A)
| Raise (e : exn).
Arguments Ok {A} a.
Arguments Raise {A} e.

(** What the attribute [_comparison_matrix] holds: [None], the Python list
    of batch results while the batches are compared, the frame that
    [compute] or [pd.concat] returned, or the merged matrix. *)
Inductive matrix_slot : Type :=
| NoMatrix
| Batches (parts : list (list score_row))
| Computed (m : list score_row)
| Merged (m : list matrix_row).

(** The attributes of a [MatchingBase] object that [perform_linkage] reads
    or writes.  [compare_cl] is [self.compare_cl.compute] applied to the
    object's record sets ([left_df] for [Deduple], [left_df] and [right_df]
    for [PLinkage]); [left_df_ranks] is [self.left_df[rank_colnames]],
    [None] when [left_df] lacks a rank column. *)
Record MatchingBase : Type := {
  candidate_pairs : option (list (Z * Z));
  compare_cl : option (list (Z * Z) → result (list score_row));
  _comparison_matrix : matrix_slot;
  name_ranks : option rank_table;
  left_df_ranks : option rank_table
}.

Definition set_comparison_matrix (self : MatchingBase) (m : matrix_slot)
  : MatchingBase :=
  {| candidate_pairs := candidate_pairs self;
     compare_cl := compare_cl self;
     _comparison_matrix := m;
     name_ranks := name_ranks self;
     left_df_ranks := left_df_ranks self |}.

Definition set_name_ranks (self : MatchingBase) (r : option rank_table)
  : MatchingBase :=
  {| candidate_pairs := candidate_pairs self;
     compare_cl := compare_cl self;
     _comparison_matrix := _comparison_matrix self;
     name_ranks := r;
     left_df_ranks := left_df_ranks self |}.

(** The end of a call: what it returned or raised, the object as the call
    left it, and the batches [compute] was called on, in call order. *)
Record run : Type := {
  outcome : result unit;
  final : MatchingBase;
  computed : list (list (Z * Z))
}.

(** *** The steps of [perform_linkage] *)

(** [m[m < threshold] = 0.0] on one entry. *)
Definition censor_entry (threshold x : spec_float) : spec_float :=
  if SFltb x threshold then f_zero else x.

(** Lines 68-70 and 137-139:
    [if threshold is not None and threshold<=1.0: m[m<threshold] = 0.0]. *)
Definition censor (threshold : option spec_float) (m : list score_row)
  : list score_row :=
  match threshold with
  | Some t =>
      if SFleb t f_one
      then map (fun r : score_row => (r.1, map (censor_entry t) r.2)) m
      else m
  | None => m
  end.

(** [.fillna(7)] on one entry. *)
Definition fillna7 (x : spec_float) : spec_float :=
  if is_nan x then f_seven else x.

(** [m.merge(name_ranks, left_on=[left_id], right_index=True, how="left")
       .fillna(7)]:
    a left join on the first identifier of the pair.  A row without a match
    gets missing ranks, a row with several matches is repeated; the missing
    values of every column are then filled with 7. *)
Definition merge_ranks (m : list score_row) (name_ranks : rank_table)
  : list matrix_row :=
  flat_map
    (fun r : score_row =>
       let matches := filter (fun e : Z * list spec_float => e.1 = r.1.1) name_ranks in
       let joined :=
         match matches with
         | [] => [ [S754_nan; S754_nan] ]
         | _ => matches.*2
         end in
       map (fun rk => {| idx := r.1;
                         scores := map fillna7 r.2;
                         ranks := map fillna7 rk |}) joined)
    m.

(** Lines 68-75: censor, read the rank columns, merge. *)
Definition finish (threshold : option spec_float) (self : MatchingBase)
  (m : list score_row) (log : list (list (Z * Z))) : run :=
  let m := censor threshold m in
  let self := set_comparison_matrix self (Computed m) in
  match left_df_ranks self with
  | None => {| outcome := Raise KeyError; final := self; computed := log |}
  | Some rk =>
      let self := set_name_ranks self (Some rk) in
      {| outcome := Ok tt;
         final := set_comparison_matrix self (Merged (merge_ranks m rk));
         computed := log |}
  end.

(** The batch loop, lines 56-61: [acc] is the list held by
    [self._comparison_matrix], to which each batch result is appended. *)
Fixpoint batch_loop (compute : list (Z * Z) → result (list score_row))
  (splitted_list : list (list (Z * Z))) (acc : list (list score_row))
  (log : list (list (Z * Z)))
  : result unit * list (list score_row) * list (list (Z * Z)) :=
  match splitted_list with
  | [] => (Ok tt, acc, log)
  | subset_candidate_pairs :: rest =>
      match compute subset_candidate_pairs with
      | Raise e => (Raise e, acc, log ++ [subset_candidate_pairs])
      | Ok part => batch_loop compute rest (acc ++ [part])
                     (log ++ [subset_candidate_pairs])
      end
  end.

(** [pd.concat] of the batch results; it refuses an empty list. *)
Definition pd_concat (parts : list (list score_row)) : result (list score_row) :=
  match parts with
  | [] => Raise ValueError
  | _ => Ok (concat parts)
  end.

(** [perform_linkage(self, threshold=None, number_of_blocks=1)], the same
    body in [Deduple] and [PLinkage].  The progress messages printed under
    [verbose] do not touch the object and are left out. *)
Definition perform_linkage (threshold : option spec_float)
  (number_of_blocks : Z) (self : MatchingBase) : run :=
  match candidate_pairs self with
  | None => {| outcome := Raise TypeError; final := self; computed := [] |}
  | Some pairs =>
      if negb (length pairs =? 0)%nat && (number_of_blocks =? 1)%Z then
        match compare_cl self with
        | None =>
            {| outcome := Raise AttributeError; final := self; computed := [] |}
        | Some compute =>
            match compute pairs with
            | Raise e =>
                {| outcome := Raise e; final := self; computed := [pairs] |}
            | Ok m => finish threshold self m [pairs]
            end
        end
      else if negb (length pairs =? 0)%nat && (1 <? number_of_blocks)%Z then
        let splitted_list := split_list pairs (Z.to_nat number_of_blocks) in
        let self := set_comparison_matrix self (Batches []) in
        match compare_cl self with
        | None =>
            {| outcome := Raise AttributeError; final := self; computed := [] |}
        | Some compute =>
            match batch_loop compute splitted_list [] [] with
            | (Raise e, acc, log) =>
                {| outcome := Raise e;
                   final := set_comparison_matrix self (Batches acc);
                   computed := log |}
            | (Ok _, acc, log) =>
                let self := set_comparison_matrix self (Batches acc) in
                match pd_concat acc with
                | Raise e =>
                    {| outcome := Raise e; final := self; computed := log |}
                | Ok m => finish threshold self m log
                end
            end
        end
      else {| outcome := Ok tt; final := self; computed := [] |}
  end.

(** *** Comparisons of float64 values *)

Lemma SFcompare_antisym x y c :
  SFcompare x y = Some c → SFcompare y x = Some (CompOpp c).
Proof.
  destruct x as [s1|s1| |s1 m1 e1], y as [s2|s2| |s2 m2 e2]; simpl;
    try discriminate; intros [= <-];
    try (destruct s1; reflexivity); try (destruct s2; reflexivity);
    try (destruct s1, s2; reflexivity).
  destruct s1, s2; try reflexivity; f_equal;
    rewrite (Z.compare_antisym e1 e2);
    destruct (e1 ?= e2)%Z; simpl; try reflexivity;
    change (PosDef.Pos.compare_cont Eq m2 m1) with (m2 ?= m1)%positive;
    change (PosDef.Pos.compare_cont Eq m1 m2) with (m1 ?= m2)%positive;
    rewrite (Pos.compare_antisym m1 m2); by destruct (m1 ?= m2)%positive.
Qed.

(** [t <= x] excludes [x < t]. *)
Lemma SFleb_not_ltb t x : SFleb t x = true → SFltb x t = false.
Proof.
  unfold SFleb, SFltb. destruct (SFcompare t x) as [c|] eqn:Hc; [|done].
  rewrite (SFcompare_antisym _ _ _ Hc). by destruct c.
Qed.

(** [x < t] excludes [t <= x]. *)
Lemma SFltb_not_leb t x : SFltb x t = true → SFleb t x = false.
Proof.
  unfold SFleb, SFltb. destruct (SFcompare x t) as [c|] eqn:Hc; [|done].
  rewrite (SFcompare_antisym _ _ _ Hc). by destruct c.
Qed.

(** A value that compares is not NaN. *)
Lemma SFleb_not_nan t x : SFleb t x = true → is_nan x = false.
Proof. destruct x; try done. by destruct t. Qed.

(** *** The steps, one by one *)

(** [x] censored at [t] is [y]. *)
Definition censored (t x y : spec_float) : Prop :=
  (SFltb x t = true → y = f_zero) ∧ (SFleb t x = true → y = x).

(** The scores of a comparison lie in [[0, 1]]. *)
Definition unit_scores (compute : list (Z * Z) → result (list score_row))
  : Prop :=
  ∀ b m r x, compute b = Ok m → r ∈ m → x ∈ r.2 →
    SFleb f_zero x = true ∧ SFleb x f_one = true.

(** [C] is what [compute] returned on the batches of [log], in order. *)
Definition computed_by (compute : list (Z * Z) → result (list score_row))
  (log : list (list (Z * Z))) (C : list score_row) : Prop :=
  ∃ parts, Forall2 (fun b part => compute b = Ok part) log parts
           ∧ C = concat parts.

Lemma censor_entry_censored t x : censored t x (fillna7 (censor_entry t x)).
Proof.
  unfold censored, censor_entry. split.
  - by intros ->.
  - intros Hle. rewrite (SFleb_not_ltb _ _ Hle).
    unfold fillna7. by rewrite (SFleb_not_nan _ _ Hle).
Qed.

Lemma fillna7_unit x : SFleb f_zero x = true → fillna7 x = x.
Proof. intros Hx. unfold fillna7. by rewrite (SFleb_not_nan _ _ Hx). Qed.

Lemma censor_entry_nonneg t x :
  SFleb f_zero x = true → SFltb (fillna7 (censor_entry t x)) f_zero = false.
Proof.
  intros Hx. unfold censor_entry. destruct (SFltb x t); [done|].
  rewrite fillna7_unit by done. by apply SFleb_not_ltb.
Qed.

Lemma Forall2_map_rel {A B} (R : A → B → Prop) (f : A → B) (l : list A) :
  (∀ x, x ∈ l → R x (f x)) → Forall2 R l (map f l).
Proof.
  induction l as [|x l IH]; intros H; simpl; constructor.
  - apply H. left.
  - apply IH. intros y Hy. apply H. by right.
Qed.

Lemma batch_loop_spec compute bs acc log :
  match batch_loop compute bs acc log with
  | (Ok _, acc', log') =>
      ∃ parts, Forall2 (fun b part => compute b = Ok part) bs parts
               ∧ acc' = acc ++ parts ∧ log' = log ++ bs
  | (Raise e, acc', log') =>
      ∃ before b rest parts,
        bs = before ++ b :: rest
        ∧ Forall2 (fun b part => compute b = Ok part) before parts
        ∧ compute b = Raise e
        ∧ acc' = acc ++ parts ∧ log' = log ++ before ++ [b]
  end.
Proof.
  revert acc log. induction bs as [|b bs IH]; intros acc log; simpl.
  - exists []. by rewrite !app_nil_r.
  - destruct (compute b) as [part|e] eqn:Hb.
    + specialize (IH (acc ++ [part]) (log ++ [b])).
      destruct (batch_loop compute bs (acc ++ [part]) (log ++ [b]))
        as [[[[]|e] acc'] log'].
      * destruct IH as (parts & Hparts & -> & ->).
        exists (part :: parts). rewrite <- !app_assoc. split_and!; [|done..].
        by constructor.
      * destruct IH as (before & b' & rest & parts & -> & Hbefore & Hb' & -> & ->).
        exists (b :: before), b', rest, (part :: parts).
        rewrite <- !app_assoc. split_and!; [done| |done..]. by constructor.
    + exists [], b, bs, []. rewrite !app_nil_r. by split_and!.
Qed.

Lemma merge_ranks_elem m rk row :
  row ∈ merge_ranks m rk →
  ∃ c, c ∈ m ∧ idx row = c.1 ∧ scores row = map fillna7 c.2.
Proof.
  unfold merge_ranks. rewrite list_elem_of_In, in_flat_map.
  intros (c & Hc & Hrow). exists c. split; [by apply list_elem_of_In|].
  apply in_map_iff in Hrow as (r & <- & _). done.
Qed.

Lemma merge_ranks_keeps m rk c :
  c ∈ m →
  ∃ row, row ∈ merge_ranks m rk ∧ idx row = c.1
         ∧ scores row = map fillna7 c.2.
Proof.
  intros Hc.
  set (matches := filter (fun e : Z * list spec_float => e.1 = c.1.1) rk).
  set (joined := match matches with
                 | [] => [ [S754_nan; S754_nan] ]
                 | _ => matches.*2
                 end).
  assert (∃ r, r ∈ joined) as [r Hr].
  { unfold joined. destruct matches as [|e ?]; eexists; left. }
  exists {| idx := c.1; scores := map fillna7 c.2; ranks := map fillna7 r |}.
  split; [|done].
  unfold merge_ranks. rewrite list_elem_of_In, in_flat_map.
  exists c. split; [by apply list_elem_of_In|].
  apply in_map_iff. exists r. split; [done|]. by apply list_elem_of_In.
Qed.

(** What the censoring step does to one entry. *)
Definition entry_after (threshold : option spec_float) (x : spec_float)
  : spec_float :=
  match threshold with
  | Some t => if SFleb t f_one then censor_entry t x else x
  | None => x
  end.

Lemma censor_map threshold m :
  censor threshold m
  = map (fun r : score_row => (r.1, map (entry_after threshold) r.2)) m.
Proof.
  assert (∀ l : list score_row,
            map (fun r : score_row => (r.1, map (fun x => x) r.2)) l = l) as Hid.
  { induction l as [|[p xs] l IH]; simpl; [done|]. by rewrite map_id, IH. }
  unfold censor, entry_after. destruct threshold as [t|]; [|by rewrite Hid].
  destruct (SFleb t f_one); [done|by rewrite Hid].
Qed.

Lemma computed_by_unit compute log C c x :
  unit_scores compute → computed_by compute log C → c ∈ C → x ∈ c.2 →
  SFleb f_zero x = true ∧ SFleb x f_one = true.
Proof.
  intros Hunit (parts & Hparts & ->) Hc Hx.
  apply list_elem_of_In, in_concat in Hc as (part & Hpart & Hc).
  apply list_elem_of_In in Hpart, Hc.
  apply list_elem_of_lookup in Hpart as [i Hi].
  destruct (Forall2_lookup_r _ _ _ _ _ Hparts Hi) as (b & _ & Hb).
  by eapply Hunit.
Qed.

(** A successful call that compares something leaves the merged matrix of
    the censored scores. *)
Lemma perform_linkage_ok threshold k self pairs compute :
  candidate_pairs self = Some pairs → pairs ≠ [] → (1 ≤ k)%Z →
  compare_cl self = Some compute →
  outcome (perform_linkage threshold k self) = Ok tt →
  ∃ C rk,
    computed_by compute (computed (perform_linkage threshold k self)) C
    ∧ left_df_ranks self = Some rk
    ∧ _comparison_matrix (final (perform_linkage threshold k self))
      = Merged (merge_ranks (censor threshold C) rk).
Proof.
  intros Hpairs Hne Hk Hcl. unfold perform_linkage. rewrite Hpairs.
  assert ((length pairs =? 0)%nat = false) as ->.
  { apply Nat.eqb_neq. by destruct pairs. }
  simpl. destruct (Z.eqb_spec k 1) as [->|Hk1].
  - rewrite Hcl. destruct (compute pairs) as [m|e] eqn:Hm; simpl; [|done].
    unfold finish. simpl. destruct (left_df_ranks self) as [rk|]; simpl; [|done].
    intros _. exists m, rk. split_and!; [|done..].
    exists [m]. split; [by repeat constructor|]. simpl. by rewrite app_nil_r.
  - destruct (Z.ltb_spec 1 k); [|lia]. simpl. rewrite Hcl.
    pose proof (batch_loop_spec compute
                  (split_list pairs (Z.to_nat k)) [] []) as Hloop.
    destruct (batch_loop compute (split_list pairs (Z.to_nat k)) [] [])
      as [[[[]|e] acc] log]; simpl; [|done].
    destruct Hloop as (parts & Hparts & -> & ->). simpl.
    destruct parts as [|part parts]; simpl; [done|].
    unfold finish. simpl. destruct (left_df_ranks self) as [rk|]; simpl; [|done].
    intros _. exists (part ++ concat parts), rk. split_and!; [|done..].
    by exists (part :: parts).
Qed.

(** How the scores of a final row relate to the computed ones: censored at
    [t] when a threshold [t <= 1.0] is given, equal when none is given. *)
Definition kept (threshold : option spec_float) (xs ys : list spec_float)
  : Prop :=
  match threshold with
  | Some t => SFleb t f_one = true → Forall2 (censored t) xs ys
  | None => ys = xs
  end.

Lemma kept_entry_after compute log C threshold c :
  unit_scores compute → computed_by compute log C → c ∈ C →
  kept threshold c.2 (map fillna7 (map (entry_after threshold) c.2)).
Proof.
  intros Hunit HC Hc. destruct threshold as [t|]; unfold kept, entry_after.
  - intros ->. rewrite map_map. apply Forall2_map_rel.
    intros x _. apply censor_entry_censored.
  - rewrite map_map. rewrite <- (map_id c.2) at 2. apply map_ext_in.
    intros x Hx%list_elem_of_In. apply fillna7_unit.
    by eapply computed_by_unit.
Qed.

(** C3, with the guard of the code.  Let [perform_linkage] compare a
    non-empty candidate set whose rule scores lie in [[0, 1]] and return.
    Then every computed row is in the final matrix and every final row comes
    from a computed row with the same pair (no row is removed); with a
    threshold [t <= 1.0] each score strictly below [t] has become exactly 0.0
    and each score at or above [t] has kept its value; with threshold [None]
    every score has kept its value; and no score is negative. *)
Theorem perform_linkage_censor self compute pairs k threshold :
  candidate_pairs self = Some pairs → pairs ≠ [] → (1 ≤ k)%Z →
  compare_cl self = Some compute → unit_scores compute →
  outcome (perform_linkage threshold k self) = Ok tt →
  ∃ C M,
    computed_by compute (computed (perform_linkage threshold k self)) C
    ∧ _comparison_matrix (final (perform_linkage threshold k self)) = Merged M
    ∧ (∀ c, c ∈ C →
         ∃ row, row ∈ M ∧ idx row = c.1 ∧ kept threshold c.2 (scores row))
    ∧ (∀ row, row ∈ M →
         ∃ c, c ∈ C ∧ idx row = c.1 ∧ kept threshold c.2 (scores row))
    ∧ (∀ row y, row ∈ M → y ∈ scores row → SFltb y f_zero = false).
Proof.
  intros Hpairs Hne Hk Hcl Hunit Hok.
  destruct (perform_linkage_ok threshold k self pairs compute
              Hpairs Hne Hk Hcl Hok) as (C & rk & HC & _ & HM).
  exists C, (merge_ranks (censor threshold C) rk).
  split_and!; [done|done|..].
  - intros c Hc.
    destruct (merge_ranks_keeps (censor threshold C) rk
                (c.1, map (entry_after threshold) c.2))
      as (row & Hrow & Hidx & Hsc).
    { rewrite censor_map. apply list_elem_of_fmap. by exists c. }
    exists row. split_and!; [done..|]. rewrite Hsc. simpl.
    by eapply kept_entry_after.
  - intros row (c' & Hc' & Hidx & Hsc)%merge_ranks_elem.
    rewrite censor_map in Hc'. apply list_elem_of_fmap in Hc' as (c & -> & Hc).
    exists c. split_and!; [done..|]. rewrite Hsc. simpl.
    by eapply kept_entry_after.
  - intros row y (c' & Hc' & _ & Hsc)%merge_ranks_elem Hy.
    rewrite censor_map in Hc'. apply list_elem_of_fmap in Hc' as (c & -> & Hc).
    rewrite Hsc in Hy. simpl in Hy. rewrite map_map in Hy.
    apply list_elem_of_fmap in Hy as (x & -> & Hx).
    destruct (computed_by_unit compute _ C c x Hunit HC Hc Hx) as [H0 _].
    unfold entry_after. destruct threshold as [t|].
    + destruct (SFleb t f_one); [by apply censor_entry_nonneg|].
      rewrite fillna7_unit by done. by apply SFleb_not_ltb.
    + rewrite fillna7_unit by done. by apply SFleb_not_ltb.
Qed.

(** *** A small run: scores 0.9, 0.4 and 0.2 for every pair

    The three scores are written as the binary64 values nearest to 0.9,
    0.4 and 0.2. *)

Definition f_09 : spec_float := Eval cbv in Prim2SF 0x1.ccccccccccccdp-1%float.
Definition f_04 : spec_float := Eval cbv in Prim2SF 0x1.999999999999ap-2%float.
Definition f_02 : spec_float := Eval cbv in Prim2SF 0x1.999999999999ap-3%float.

Definition ex_compute (b : list (Z * Z)) : result (list score_row) :=
  Ok (map (fun p => (p, [f_09; f_04; f_02])) b).

(** The same comparison, failing on the batch [[(3, 4)]]. *)
Definition ex_compute_failing (b : list (Z * Z)) : result (list score_row) :=
  match b with
  | [(3, 4)%Z] => Raise (LibraryError "compare")
  | _ => ex_compute b
  end.

Definition ex_self : MatchingBase :=
  {| candidate_pairs := Some [(1, 2); (3, 4)]%Z;
     compare_cl := Some ex_compute;
     _comparison_matrix := NoMatrix;
     name_ranks := None;
     left_df_ranks := Some [(1%Z, [f_one; f_two])] |}.

Definition ex_self_failing : MatchingBase :=
  {| candidate_pairs := Some [(1, 2); (3, 4)]%Z;
     compare_cl := Some ex_compute_failing;
     _comparison_matrix := NoMatrix;
     name_ranks := None;
     left_df_ranks := Some [(1%Z, [f_one; f_two])] |}.

Definition ex_self_empty : MatchingBase :=
  {| candidate_pairs := Some [];
     compare_cl := Some ex_compute;
     _comparison_matrix := NoMatrix;
     name_ranks := None;
     left_df_ranks := Some [(1%Z, [f_one; f_two])] |}.

Example perform_linkage_ex_half :
  _comparison_matrix (final (perform_linkage (Some f_half) 1 ex_self))
  = Merged
      [ {| idx := (1, 2)%Z; scores := [f_09; f_zero; f_zero];
           ranks := [f_one; f_two] |};
        {| idx := (3, 4)%Z; scores := [f_09; f_zero; f_zero];
           ranks := [f_seven; f_seven] |} ].
Proof. reflexivity. Qed.

Example perform_linkage_ex_batches :
  perform_linkage (Some f_half) 2 ex_self
  = {| outcome := Ok tt;
       final := final (perform_linkage (Some f_half) 1 ex_self);
       computed := [[(1, 2)%Z]; [(3, 4)%Z]] |}.
Proof. reflexivity. Qed.

Lemma ex_compute_unit : unit_scores ex_compute.
Proof.
  intros b m r x [= <-] Hr Hx.
  apply list_elem_of_fmap in Hr as (p & -> & _). simpl in Hx.
  repeat (apply elem_of_cons in Hx as [->|Hx]; [by vm_compute|]).
  by apply elem_of_nil in Hx.
Qed.

(** The claim at [ex_self], threshold 0.5, one block. *)
Lemma perform_linkage_censor_witness :
  ∃ C M,
    computed_by ex_compute
      (computed (perform_linkage (Some f_half) 1 ex_self)) C
    ∧ _comparison_matrix (final (perform_linkage (Some f_half) 1 ex_self))
      = Merged M
    ∧ (∀ c, c ∈ C →
         ∃ row, row ∈ M ∧ idx row = c.1 ∧ kept (Some f_half) c.2 (scores row))
    ∧ (∀ row, row ∈ M →
         ∃ c, c ∈ C ∧ idx row = c.1 ∧ kept (Some f_half) c.2 (scores row))
    ∧ (∀ row y, row ∈ M → y ∈ scores row → SFltb y f_zero = false).
Proof.
  apply (perform_linkage_censor ex_self ex_compute [(1, 2); (3, 4)]%Z 1
           (Some f_half)).
  - reflexivity.
  - discriminate.
  - lia.
  - reflexivity.
  - exact ex_compute_unit.
  - reflexivity.
Defined.

(** C3 as it is written fails for a threshold above 1.0: with threshold 2.0
    the scores 0.9, 0.4 and 0.2 are strictly below the threshold and none of
    them is replaced by 0.0. *)
Lemma perform_linkage_threshold_two :
  SFltb f_09 f_two = true ∧ SFltb f_04 f_two = true ∧ SFltb f_02 f_two = true
  ∧ _comparison_matrix (final (perform_linkage (Some f_two) 1 ex_self))
    = Merged
        [ {| idx := (1, 2)%Z; scores := [f_09; f_04; f_02];
             ranks := [f_one; f_two] |};
          {| idx := (3, 4)%Z; scores := [f_09; f_04; f_02];
             ranks := [f_seven; f_seven] |} ].
Proof. split_and!; reflexivity. Qed.

(** *** The guard [threshold <= 1.0] *)

(** [x <= c < t] gives [x < t], for a positive finite [c]. *)
Lemma SFltb_above_finite m0 e0 x t :
  SFleb x (S754_finite false m0 e0) = true →
  SFltb (S754_finite false m0 e0) t = true → SFltb x t = true.
Proof.
  unfold SFleb, SFltb.
  destruct x as [s1|s1| |s1 m1 e1], t as [s2|s2| |s2 m2 e2]; simpl;
    try done; try (destruct s1; done); try (destruct s2; done);
    try (destruct s1, s2; done).
  destruct s1, s2; try done.
  change (PosDef.Pos.compare_cont Eq m1 m0) with (m1 ?= m0)%positive.
  change (PosDef.Pos.compare_cont Eq m0 m2) with (m0 ?= m2)%positive.
  change (PosDef.Pos.compare_cont Eq m1 m2) with (m1 ?= m2)%positive.
  destruct (Z.compare_spec e1 e0), (Z.compare_spec e0 e2),
    (Z.compare_spec e1 e2); try done; try lia;
    destruct (Pos.compare_spec m1 m0), (Pos.compare_spec m0 m2),
      (Pos.compare_spec m1 m2); try done; lia.
Qed.

(** [x <= 1.0 < t] gives [x < t]. *)
Lemma SFltb_above_one x t :
  SFleb x f_one = true → SFltb f_one t = true → SFltb x t = true.
Proof. apply SFltb_above_finite. Qed.

Lemma censor_above_one t m : SFltb f_one t = true → censor (Some t) m = m.
Proof. intros Ht. unfold censor. by rewrite (SFltb_not_leb _ _ Ht). Qed.

Lemma finish_above_one t self m log :
  SFltb f_one t = true → finish (Some t) self m log = finish None self m log.
Proof. intros Ht. unfold finish. by rewrite (censor_above_one t m Ht). Qed.

(** C10. For every threshold [t > 1.0], [perform_linkage] censors nothing:
    the call ends exactly as the call with threshold [None] does, the
    censoring step leaves every matrix as it is, although every score
    [x <= 1.0] is strictly below [t]. *)
Theorem perform_linkage_threshold_above_one t k self :
  SFltb f_one t = true →
  perform_linkage (Some t) k self = perform_linkage None k self
  ∧ (∀ m, censor (Some t) m = m)
  ∧ (∀ x, SFleb x f_one = true → SFltb x t = true).
Proof.
  intros Ht. split_and!.
  - unfold perform_linkage.
    destruct (candidate_pairs self) as [pairs|]; [|done].
    destruct (_ && (k =? 1)%Z).
    + destruct (compare_cl self) as [compute|]; [|done].
      destruct (compute pairs); [|done]. by apply finish_above_one.
    + destruct (_ && (1 <? k)%Z); [|done]. simpl.
      destruct (compare_cl self) as [compute|]; [|done].
      destruct (batch_loop compute _ [] []) as [[[[]|e] acc] log]; [|done].
      destruct (pd_concat acc); [|done]. by apply finish_above_one.
  - intros m. by apply censor_above_one.
  - intros x Hx. by apply SFltb_above_one.
Qed.

(** The claim at [ex_self] with threshold 2.0. *)
Lemma perform_linkage_threshold_above_one_witness :
  perform_linkage (Some f_two) 1 ex_self = perform_linkage None 1 ex_self
  ∧ SFltb f_04 f_two = true.
Proof.
  destruct (perform_linkage_threshold_above_one f_two 1 ex_self)
    as (Hrun & _ & Hbelow); [reflexivity|].
  split; [exact Hrun|]. apply Hbelow. reflexivity.
Defined.

(** *** An empty candidate set *)

(** C9. With an empty candidate-pair set [perform_linkage] returns without
    raising, calls no comparison and leaves the object, its comparison
    matrix included, exactly as it was. *)
Theorem perform_linkage_empty threshold number_of_blocks self :
  candidate_pairs self = Some [] →
  perform_linkage threshold number_of_blocks self
  = {| outcome := Ok tt; final := self; computed := [] |}.
Proof. intros Hpairs. unfold perform_linkage. by rewrite Hpairs. Qed.

(** The claim at [ex_self_empty]. *)
Lemma perform_linkage_empty_witness :
  perform_linkage (Some f_half) 3 ex_self_empty
  = {| outcome := Ok tt; final := ex_self_empty; computed := [] |}.
Proof. apply perform_linkage_empty. reflexivity. Defined.

(** *** A failing batch *)

(** C5, without the restoring of the matrix.  When [perform_linkage] runs
    with more than one block and comparing some batch fails, the call raises
    the error of the first failing batch and returns nothing; the batches
    before it were compared once each, the failing batch once, the batches
    after it never; and every attribute other than [_comparison_matrix] is
    as it was before the call. *)
Theorem perform_linkage_batch_failure self compute pairs k threshold :
  candidate_pairs self = Some pairs → pairs ≠ [] → (1 < k)%Z →
  compare_cl self = Some compute →
  (∃ b e, b ∈ split_list pairs (Z.to_nat k) ∧ compute b = Raise e) →
  ∃ before b rest e,
    split_list pairs (Z.to_nat k) = before ++ b :: rest
    ∧ Forall (fun b' => ∃ part, compute b' = Ok part) before
    ∧ compute b = Raise e
    ∧ outcome (perform_linkage threshold k self) = Raise e
    ∧ computed (perform_linkage threshold k self) = before ++ [b]
    ∧ candidate_pairs (final (perform_linkage threshold k self))
      = candidate_pairs self
    ∧ compare_cl (final (perform_linkage threshold k self)) = compare_cl self
    ∧ name_ranks (final (perform_linkage threshold k self)) = name_ranks self
    ∧ left_df_ranks (final (perform_linkage threshold k self))
      = left_df_ranks self.
Proof.
  intros Hpairs Hne Hk Hcl (b0 & e0 & Hb0 & He0).
  unfold perform_linkage. rewrite Hpairs.
  assert ((length pairs =? 0)%nat = false) as ->.
  { apply Nat.eqb_neq. by destruct pairs. }
  destruct (Z.eqb_spec k 1); [lia|]. destruct (Z.ltb_spec 1 k); [|lia].
  simpl. rewrite Hcl.
  pose proof (batch_loop_spec compute
                (split_list pairs (Z.to_nat k)) [] []) as Hloop.
  destruct (batch_loop compute (split_list pairs (Z.to_nat k)) [] [])
    as [[[[]|e] acc] log].
  - destruct Hloop as (parts & Hparts & _).
    apply list_elem_of_lookup in Hb0 as [i Hi].
    destruct (Forall2_lookup_l _ _ _ _ _ Hparts Hi) as (part & _ & Hok).
    congruence.
  - destruct Hloop as (before & b & rest & parts & Hsplit & Hbefore & Hb & -> & ->).
    exists before, b, rest, e. split_and!; try done.
    apply Forall_forall. intros b' Hb'.
    apply list_elem_of_lookup in Hb' as [i Hi].
    destruct (Forall2_lookup_l _ _ _ _ _ Hbefore Hi) as (part & _ & Hok). eauto.
Qed.

(** The claim at [ex_self_failing], cut in two batches. *)
Lemma perform_linkage_batch_failure_witness :
  ∃ before b rest e,
    split_list [(1, 2); (3, 4)]%Z 2 = before ++ b :: rest
    ∧ outcome (perform_linkage None 2 ex_self_failing) = Raise e
    ∧ computed (perform_linkage None 2 ex_self_failing) = before ++ [b].
Proof.
  destruct (perform_linkage_batch_failure ex_self_failing ex_compute_failing
              [(1, 2); (3, 4)]%Z 2 None)
    as (before & b & rest & e & Hsplit & _ & _ & Hout & Hlog & _).
  - reflexivity.
  - discriminate.
  - lia.
  - reflexivity.
  - exists [(3, 4)%Z], (LibraryError "compare"). split; [|reflexivity].
    apply list_elem_of_further, list_elem_of_here.
  - exists before, b, rest, e. split_and!; assumption.
Defined.

(** C5 as it is written fails: the first batch succeeds, the second fails,
    and the call leaves the list of the batch results compared so far in
    [_comparison_matrix], which held [None] before the call. *)
Lemma perform_linkage_keeps_partial :
  outcome (perform_linkage None 2 ex_self_failing)
  = Raise (LibraryError "compare")
  ∧ _comparison_matrix (final (perform_linkage None 2 ex_self_failing))
    = Batches [[((1, 2)%Z, [f_09; f_04; f_02])]]
  ∧ _comparison_matrix ex_self_failing = NoMatrix.
Proof. split_and!; reflexivity. Qed.

(** *** More on [perform_linkage] *)

(** A comparison is row-wise when comparing a concatenation of batches gives
    the concatenation of the batch results. *)
Definition rowwise (compute : list (Z * Z) → result (list score_row)) : Prop :=
  ∀ bs parts,
    Forall2 (fun b part => compute b = Ok part) bs parts →
    compute (concat bs) = Ok (concat parts).

Lemma finish_final threshold self slot m log log' :
  final (finish threshold (set_comparison_matrix self slot) m log)
  = final (finish threshold self m log')
  ∧ outcome (finish threshold (set_comparison_matrix self slot) m log)
    = outcome (finish threshold self m log').
Proof.
  unfold finish. simpl. by destruct (left_df_ranks self).
Qed.

(** Batching is transparent for a row-wise comparison: when the call with
    [number_of_blocks > 1] returns, the call with one block returns too and
    leaves the object in the same state. *)
Theorem perform_linkage_batches_transparent self compute pairs k threshold :
  candidate_pairs self = Some pairs → compare_cl self = Some compute →
  rowwise compute → (1 < k)%Z →
  outcome (perform_linkage threshold k self) = Ok tt →
  outcome (perform_linkage threshold 1 self) = Ok tt
  ∧ final (perform_linkage threshold 1 self)
    = final (perform_linkage threshold k self).
Proof.
  intros Hpairs Hcl Hrow Hk. unfold perform_linkage. rewrite Hpairs.
  destruct (length pairs =? 0)%nat eqn:Hlen; simpl.
  { destruct (k =? 1)%Z, (1 <? k)%Z; done. }
  destruct (Z.eqb_spec k 1); [lia|]. destruct (Z.ltb_spec 1 k); [|lia].
  simpl. rewrite Hcl.
  pose proof (batch_loop_spec compute
                (split_list pairs (Z.to_nat k)) [] []) as Hloop.
  destruct (batch_loop compute (split_list pairs (Z.to_nat k)) [] [])
    as [[[[]|e] acc] log]; simpl; [|done].
  destruct Hloop as (parts & Hparts & -> & ->). simpl.
  pose proof (Hrow _ _ Hparts) as Hall.
  rewrite split_list_concat in Hall by lia. rewrite Hall.
  destruct parts as [|part parts]; simpl; [done|].
  intros Hok.
  destruct (finish_final threshold
              (set_comparison_matrix self (Batches []))
              (Batches (part :: parts)) (part ++ concat parts)
              (split_list pairs (Z.to_nat k)) (split_list pairs (Z.to_nat k)))
    as [Hf1 Ho1].
  destruct (finish_final threshold self (Batches [])
              (part ++ concat parts)
              (split_list pairs (Z.to_nat k)) [pairs]) as [Hf2 Ho2].
  rewrite Ho1, Ho2 in Hok. rewrite Hf1, Hf2. by split.
Qed.

Lemma ex_compute_rowwise : rowwise ex_compute.
Proof.
  intros bs parts Hparts. unfold ex_compute. f_equal.
  induction Hparts as [|b part bs parts Hb _ IH]; simpl; [done|].
  rewrite map_app, IH. unfold ex_compute in Hb. by simplify_eq.
Qed.

(** The property at [ex_self], two blocks. *)
Lemma perform_linkage_batches_transparent_witness :
  outcome (perform_linkage (Some f_half) 1 ex_self) = Ok tt
  ∧ final (perform_linkage (Some f_half) 1 ex_self)
    = final (perform_linkage (Some f_half) 2 ex_self).
Proof.
  apply (perform_linkage_batches_transparent ex_self ex_compute
           [(1, 2); (3, 4)]%Z 2 (Some f_half)).
  - reflexivity.
  - reflexivity.
  - exact ex_compute_rowwise.
  - lia.
  - reflexivity.
Defined.

Lemma finish_computed threshold self m log :
  computed (finish threshold self m log) = log.
Proof. unfold finish. simpl. by destruct (left_df_ranks self). Qed.

Lemma split_list_one {A} (lst : list A) : split_list lst 1 = [lst].
Proof.
  pose proof (split_list_length lst 1) as Hlen.
  pose proof (split_list_concat lst 1) as Hcat.
  destruct (split_list lst 1) as [|p [|q t]]; simpl in *; [done| |done].
  rewrite app_nil_r in Hcat. rewrite Hcat by lia. done.
Qed.

(** What is handed to the comparison.  With no candidate pair or with
    [number_of_blocks < 1] nothing is compared and the object is as before.
    Otherwise the batches compared are a non-empty initial part of
    [split_list(candidate_pairs, number_of_blocks)], and when the call
    returns they are all of it: every candidate pair has been compared once,
    in the order of the candidate list. *)
Theorem perform_linkage_compares_once self compute pairs k threshold :
  candidate_pairs self = Some pairs → compare_cl self = Some compute →
  (pairs = [] ∨ (k < 1)%Z →
   perform_linkage threshold k self
   = {| outcome := Ok tt; final := self; computed := [] |})
  ∧ (pairs ≠ [] → (1 ≤ k)%Z →
     computed (perform_linkage threshold k self) ≠ []
     ∧ computed (perform_linkage threshold k self)
         `prefix_of` split_list pairs (Z.to_nat k)
     ∧ (outcome (perform_linkage threshold k self) = Ok tt →
        concat (computed (perform_linkage threshold k self)) = pairs)).
Proof.
  intros Hpairs Hcl. unfold perform_linkage. rewrite Hpairs. split.
  - intros [->|Hk]; [done|].
    destruct (Z.eqb_spec k 1); [lia|]. destruct (Z.ltb_spec 1 k); [lia|].
    by rewrite !andb_false_r.
  - intros Hne Hk.
    assert ((length pairs =? 0)%nat = false) as ->.
    { apply Nat.eqb_neq. by destruct pairs. }
    simpl. destruct (Z.eqb_spec k 1) as [->|Hk1].
    + rewrite Hcl. change (Z.to_nat 1) with 1%nat. rewrite split_list_one.
      destruct (compute pairs); rewrite ?finish_computed; simpl;
        by rewrite ?app_nil_r.
    + destruct (Z.ltb_spec 1 k); [|lia]. simpl. rewrite Hcl.
      pose proof (split_list_length pairs (Z.to_nat k)) as Hlen.
      pose proof (split_list_concat pairs (Z.to_nat k)) as Hcat.
      pose proof (batch_loop_spec compute
                    (split_list pairs (Z.to_nat k)) [] []) as Hloop.
      destruct (batch_loop compute (split_list pairs (Z.to_nat k)) [] [])
        as [[[[]|e] acc] log].
      * destruct Hloop as (parts & Hparts & -> & ->). simpl.
        assert (computed
                  match pd_concat parts with
                  | Ok m =>
                      finish threshold
                        (set_comparison_matrix
                           (set_comparison_matrix self (Batches []))
                           (Batches parts)) m
                        (split_list pairs (Z.to_nat k))
                  | Raise e =>
                      {| outcome := Raise e;
                         final :=
                           set_comparison_matrix
                             (set_comparison_matrix self (Batches []))
                             (Batches parts);
                         computed := split_list pairs (Z.to_nat k) |}
                  end = split_list pairs (Z.to_nat k)) as ->.
        { destruct (pd_concat parts); [apply finish_computed|done]. }
        split_and!.
        -- intros Heq. rewrite Heq in Hlen. simpl in Hlen. lia.
        -- done.
        -- intros _. apply Hcat. lia.
      * destruct Hloop as (before & b & rest & parts & Hsplit & _ & _ & _ & ->).
        simpl. split_and!; [by destruct before| |done].
        rewrite Hsplit. exists rest. by rewrite <- app_assoc.
Qed.

(** The property at [ex_self] with two blocks, and with none. *)
Lemma perform_linkage_compares_once_witness :
  computed (perform_linkage None 2 ex_self) = [[(1, 2)]; [(3, 4)]]%Z
  ∧ concat (computed (perform_linkage None 2 ex_self)) = [(1, 2); (3, 4)]%Z
  ∧ perform_linkage None 0 ex_self
    = {| outcome := Ok tt; final := ex_self; computed := [] |}.
Proof.
  pose proof (perform_linkage_compares_once ex_self ex_compute
                [(1, 2); (3, 4)]%Z 2 None eq_refl eq_refl) as [_ Hsome].
  pose proof (perform_linkage_compares_once ex_self ex_compute
                [(1, 2); (3, 4)]%Z 0 None eq_refl eq_refl) as [Hnone _].
  split_and!.
  - reflexivity.
  - apply Hsome; [discriminate|lia|reflexivity].
  - apply Hnone. right. lia.
Defined.

(** The matrix after a failed comparison.  With one block the error is
    raised before any attribute is assigned and the object is exactly as it
    was.  With more blocks the matrix held before the call is lost: the
    attribute holds the list of the results of the batches compared before
    the failing one, the empty list when the first batch fails. *)
Theorem perform_linkage_failed_matrix self compute pairs k threshold :
  candidate_pairs self = Some pairs → pairs ≠ [] → (1 ≤ k)%Z →
  compare_cl self = Some compute →
  (∃ b e, b ∈ split_list pairs (Z.to_nat k) ∧ compute b = Raise e) →
  (k = 1%Z → final (perform_linkage threshold k self) = self)
  ∧ ((1 < k)%Z →
     ∃ before parts b,
       computed (perform_linkage threshold k self) = before ++ [b]
       ∧ Forall2 (fun b' part => compute b' = Ok part) before parts
       ∧ _comparison_matrix (final (perform_linkage threshold k self))
         = Batches parts).
Proof.
  intros Hpairs Hne Hk Hcl (b0 & e0 & Hb0 & He0).
  unfold perform_linkage. rewrite Hpairs.
  assert ((length pairs =? 0)%nat = false) as ->.
  { apply Nat.eqb_neq. by destruct pairs. }
  simpl. split.
  - intros ->. simpl. rewrite Hcl.
    change (Z.to_nat 1) with 1%nat in Hb0. rewrite split_list_one in Hb0.
    apply list_elem_of_singleton in Hb0 as ->. by rewrite He0.
  - intros Hk1.
    destruct (Z.eqb_spec k 1); [lia|]. destruct (Z.ltb_spec 1 k); [|lia].
    simpl. rewrite Hcl.
    pose proof (batch_loop_spec compute
                  (split_list pairs (Z.to_nat k)) [] []) as Hloop.
    destruct (batch_loop compute (split_list pairs (Z.to_nat k)) [] [])
      as [[[[]|e] acc] log].
    + destruct Hloop as (parts & Hparts & _).
      apply list_elem_of_lookup in Hb0 as [i Hi].
      destruct (Forall2_lookup_l _ _ _ _ _ Hparts Hi) as (part & _ & Hok).
      congruence.
    + destruct Hloop
        as (before & b & rest & parts & Hsplit & Hbefore & Hb & -> & ->).
      by exists before, parts, b.
Qed.

Definition ex_self_failing_whole : MatchingBase :=
  {| candidate_pairs := Some [(3, 4)]%Z;
     compare_cl := Some ex_compute_failing;
     _comparison_matrix := Merged [];
     name_ranks := None;
     left_df_ranks := Some [(1%Z, [f_one; f_two])] |}.

(** The property at a candidate set on which the comparison fails, in one
    block. *)
Lemma perform_linkage_failed_matrix_witness :
  final (perform_linkage None 1 ex_self_failing_whole) = ex_self_failing_whole.
Proof.
  refine (proj1 (perform_linkage_failed_matrix ex_self_failing_whole
                   ex_compute_failing [(3, 4)%Z] 1 None _ _ _ _ _) _).
  - reflexivity.
  - discriminate.
  - lia.
  - reflexivity.
  - exists [(3, 4)%Z], (LibraryError "compare"). split; [|reflexivity].
    apply list_elem_of_here.
  - reflexivity.
Defined.

(** When [left_df] lacks a rank column and every batch compares, the call
    fails with a [KeyError] after the comparing and the censoring are done:
    the attribute holds the censored scores of all the candidate pairs, not
    merged, and [name_ranks] is as before. *)
Theorem perform_linkage_without_ranks self compute pairs k threshold :
  candidate_pairs self = Some pairs → pairs ≠ [] → (1 ≤ k)%Z →
  compare_cl self = Some compute →
  Forall (fun b => ∃ part, compute b = Ok part)
    (split_list pairs (Z.to_nat k)) →
  left_df_ranks self = None →
  outcome (perform_linkage threshold k self) = Raise KeyError
  ∧ (∃ C,
       computed_by compute (split_list pairs (Z.to_nat k)) C
       ∧ _comparison_matrix (final (perform_linkage threshold k self))
         = Computed (censor threshold C))
  ∧ name_ranks (final (perform_linkage threshold k self)) = name_ranks self.
Proof.
  intros Hpairs Hne Hk Hcl Hall Hranks.
  unfold perform_linkage. rewrite Hpairs.
  assert ((length pairs =? 0)%nat = false) as ->.
  { apply Nat.eqb_neq. by destruct pairs. }
  simpl. destruct (Z.eqb_spec k 1) as [->|Hk1].
  - rewrite Hcl. change (Z.to_nat 1) with 1%nat in *.
    rewrite split_list_one in *.
    apply Forall_singleton in Hall as [m Hm]. rewrite Hm.
    unfold finish. simpl. rewrite Hranks. simpl. split_and!; [done| |done].
    exists m. split; [|done]. exists [m]. split.
    + by constructor.
    + simpl. by rewrite app_nil_r.
  - destruct (Z.ltb_spec 1 k); [|lia]. simpl. rewrite Hcl.
    pose proof (split_list_length pairs (Z.to_nat k)) as Hlen.
    pose proof (batch_loop_spec compute
                  (split_list pairs (Z.to_nat k)) [] []) as Hloop.
    destruct (batch_loop compute (split_list pairs (Z.to_nat k)) [] [])
      as [[[[]|e] acc] log].
    + destruct Hloop as (parts & Hparts & -> & ->). simpl.
      destruct parts as [|part parts].
      { apply Forall2_length in Hparts. simpl in Hparts. lia. }
      simpl. unfold finish. simpl. rewrite Hranks. simpl.
      split_and!; [done| |done].
      exists (part ++ concat parts). split; [|done]. by exists (part :: parts).
    + destruct Hloop as (before & b & rest & parts & Hsplit & _ & Hb & _).
      rewrite Hsplit in Hall. apply Forall_app in Hall as [_ Hall].
      apply Forall_cons in Hall as [[part Hpart] _]. congruence.
Qed.

Definition ex_self_no_ranks : MatchingBase :=
  {| candidate_pairs := Some [(1, 2)]%Z;
     compare_cl := Some ex_compute;
     _comparison_matrix := NoMatrix;
     name_ranks := None;
     left_df_ranks := None |}.

(** The property at an object whose [left_df] has no rank columns. *)
Lemma perform_linkage_without_ranks_witness :
  outcome (perform_linkage (Some f_half) 1 ex_self_no_ranks) = Raise KeyError
  ∧ name_ranks (final (perform_linkage (Some f_half) 1 ex_self_no_ranks))
    = name_ranks ex_self_no_ranks.
Proof.
  destruct (perform_linkage_without_ranks ex_self_no_ranks ex_compute
              [(1, 2)%Z] 1 (Some f_half)) as (Hout & _ & Hnames).
  - reflexivity.
  - discriminate.
  - lia.
  - reflexivity.
  - repeat constructor. by eexists.
  - reflexivity.
  - by split.
Defined.

(** *** The merged matrix *)

Lemma fillna7_not_nan x : is_nan (fillna7 x) = false.
Proof. unfold fillna7. by destruct x. Qed.

Lemma merge_ranks_row m rk row :
  row ∈ merge_ranks m rk →
  ∃ c, c ∈ m ∧ idx row = c.1 ∧ scores row = map fillna7 c.2
       ∧ ((∀ e, e ∈ rk → e.1 ≠ c.1.1) ∧ ranks row = [f_seven; f_seven]
          ∨ ∃ e, e ∈ rk ∧ e.1 = c.1.1 ∧ ranks row = map fillna7 e.2).
Proof.
  unfold merge_ranks. rewrite list_elem_of_In, in_flat_map.
  intros (c & Hc & Hrow). exists c. split; [by apply list_elem_of_In|].
  apply in_map_iff in Hrow as (r & <- & Hr). simpl. split_and!; [done..|].
  destruct (filter (fun e : Z * list spec_float => e.1 = c.1.1) rk)
    as [|e0 t] eqn:Hmatches.
  - left. split.
    + intros e He Heq.
      assert (e ∈ filter (fun e : Z * list spec_float => e.1 = c.1.1) rk) as Hin
        by (by apply list_elem_of_filter).
      rewrite Hmatches in Hin. by apply elem_of_nil in Hin.
    + destruct Hr as [<-|[]]. reflexivity.
  - right. apply list_elem_of_In, list_elem_of_fmap in Hr as (e & -> & He).
    rewrite <- Hmatches in He. apply list_elem_of_filter in He as [Heq He].
    by exists e.
Qed.

(** After a call that compared something and returned, the merged matrix
    has no missing value: no score and no rank is NaN, and a row whose left
    identifier has no row in the rank table carries the ranks 7 and 7. *)
Theorem perform_linkage_fills_missing self compute pairs k threshold :
  candidate_pairs self = Some pairs → pairs ≠ [] → (1 ≤ k)%Z →
  compare_cl self = Some compute →
  outcome (perform_linkage threshold k self) = Ok tt →
  ∃ rk M,
    left_df_ranks self = Some rk
    ∧ _comparison_matrix (final (perform_linkage threshold k self)) = Merged M
    ∧ (∀ row y, row ∈ M → y ∈ scores row ∨ y ∈ ranks row → is_nan y = false)
    ∧ (∀ row, row ∈ M → (∀ e, e ∈ rk → e.1 ≠ (idx row).1) →
         ranks row = [f_seven; f_seven]).
Proof.
  intros Hpairs Hne Hk Hcl Hok.
  destruct (perform_linkage_ok threshold k self pairs compute
              Hpairs Hne Hk Hcl Hok) as (C & rk & _ & Hrk & HM).
  exists rk, (merge_ranks (censor threshold C) rk). split_and!; [done..| |].
  - intros row y (c & _ & _ & Hsc & Hranks)%merge_ranks_row Hy.
    assert (∃ l : list spec_float, y ∈ map fillna7 l) as [l Hl].
    { destruct Hy as [Hy|Hy].
      - exists c.2. by rewrite <- Hsc.
      - destruct Hranks as [[_ Hr]|(e & _ & _ & Hr)]; rewrite Hr in Hy.
        + exists [S754_nan; S754_nan]. exact Hy.
        + by exists e.2. }
    apply list_elem_of_fmap in Hl as (x & -> & _). apply fillna7_not_nan.
  - intros row (c & _ & Hidx & _ & Hranks)%merge_ranks_row Hno.
    destruct Hranks as [[_ Hr]|(e & He & Heq & _)]; [done|].
    destruct (Hno e He). by rewrite Hidx.
Qed.

(** The property at [ex_self]: the pair [(3, 4)] has no rank row. *)
Lemma perform_linkage_fills_missing_witness :
  ∃ rk M,
    left_df_ranks ex_self = Some rk
    ∧ _comparison_matrix (final (perform_linkage None 1 ex_self)) = Merged M
    ∧ (∀ row y, row ∈ M → y ∈ scores row ∨ y ∈ ranks row → is_nan y = false)
    ∧ (∀ row, row ∈ M → (∀ e, e ∈ rk → e.1 ≠ (idx row).1) →
         ranks row = [f_seven; f_seven]).
Proof.
  apply (perform_linkage_fills_missing ex_self ex_compute
           [(1, 2); (3, 4)]%Z 1 None);
    [reflexivity|discriminate|lia|reflexivity|reflexivity].
Defined.

Lemma filter_unique_index (rk : list (Z * list spec_float)) (x : Z) :
  NoDup rk.*1 →
  length (filter (fun e : Z * list spec_float => e.1 = x) rk) ≤ 1.
Proof.
  induction rk as [|e rk IH]; [simpl; lia|].
  rewrite fmap_cons, NoDup_cons. intros [He Hnd]. rewrite filter_cons.
  case_decide as Heq; [|by apply IH]. simpl.
  destruct (filter (fun e : Z * list spec_float => e.1 = x) rk)
    as [|e' t] eqn:Hf; [simpl; lia|].
  exfalso. apply He.
  assert (e' ∈ filter (fun e : Z * list spec_float => e.1 = x) rk) as Hin
    by (rewrite Hf; left).
  apply list_elem_of_filter in Hin as [Hx Hin].
  rewrite Heq, <- Hx. by apply list_elem_of_fmap_2.
Qed.

Lemma merge_ranks_idx (m : list score_row) (rk : list (Z * list spec_float)) :
  NoDup rk.*1 → idx <$> merge_ranks m rk = m.*1.
Proof.
  intros Hnd. induction m as [|r m IH]; [done|].
  unfold merge_ranks. simpl. rewrite fmap_app. fold (merge_ranks m rk).
  rewrite IH. pose proof (filter_unique_index rk r.1.1 Hnd) as Hlen.
  unfold rank_table in *.
  destruct (filter (fun e : Z * list spec_float => e.1 = r.1.1) rk)
    as [|e [|e' t]]; simpl in *; [reflexivity|reflexivity|lia].
Qed.

(** When the identifiers of the rank table are distinct, the left join adds
    columns only: the merged matrix has the rows of the computed frame, one
    for one and in the same order. *)
Theorem perform_linkage_keeps_rows self compute pairs k threshold rk :
  candidate_pairs self = Some pairs → pairs ≠ [] → (1 ≤ k)%Z →
  compare_cl self = Some compute →
  left_df_ranks self = Some rk → NoDup rk.*1 →
  outcome (perform_linkage threshold k self) = Ok tt →
  ∃ C M,
    computed_by compute (computed (perform_linkage threshold k self)) C
    ∧ _comparison_matrix (final (perform_linkage threshold k self)) = Merged M
    ∧ idx <$> M = C.*1.
Proof.
  intros Hpairs Hne Hk Hcl Hrk Hnd Hok.
  destruct (perform_linkage_ok threshold k self pairs compute
              Hpairs Hne Hk Hcl Hok) as (C & rk' & HC & Hrk' & HM).
  assert (rk' = rk) as -> by congruence.
  exists C, (merge_ranks (censor threshold C) rk). split_and!; [done..|].
  rewrite merge_ranks_idx by done. rewrite censor_map.
  change (map ?f C).*1 with (fst <$> (f <$> C)).
  by rewrite <- list_fmap_compose.
Qed.

(** The property at [ex_self]. *)
Lemma perform_linkage_keeps_rows_witness :
  ∃ C M,
    computed_by ex_compute (computed (perform_linkage None 2 ex_self)) C
    ∧ _comparison_matrix (final (perform_linkage None 2 ex_self)) = Merged M
    ∧ idx <$> M = C.*1.
Proof.
  apply (perform_linkage_keeps_rows ex_self ex_compute [(1, 2); (3, 4)]%Z 2
           None [(1%Z, [f_one; f_two])]);
    [reflexivity|discriminate|lia|reflexivity|reflexivity| |reflexivity].
  apply NoDup_singleton.
Defined.

End Matching.

(* ===================================================================== *)
(** ** [MatchingBase.save_files], [save_pairs] and [load_pairs] *)
(* ===================================================================== *)

Module Annotation.
Local Open Scope string_scope.

(** *** JSON values, files and errors *)

Local Unset Elimination Schemes.

(** What [json.dump] writes and [json.load] reads back. *)
Inductive json : Type :=
| JNull
| JInt (z : Z)
| JStr (s : string)
| JArr (items : list json)
| JObj (fields : list (string * json)).

Local Set Elimination Schemes.

(** [d[k]] on a JSON object; [None] is a [KeyError] or a [TypeError]. *)
Fixpoint assoc (k : string) (fields : list (string * json)) : option json :=
  match fields with
  | [] => None
  | (k', v) :: t => if String.eqb k k' then Some v else assoc k t
  end.

Definition get (k : string) (j : json) : option json :=
  match j with
  | JObj fields => assoc k fields
  | _ => None
  end.

(** The part of the file system the export touches: the directories and
    the JSON files, each file holding the value dumped into it (the encoder
    and decoder of the [json] library are taken to round-trip). *)
Record file_system : Type := {
  dirs : gset string;
  files : gmap string json
}.

Inductive error : Type :=
| Exception (msg : string)
| KeyError | TypeError | ValueError
| FileNotFoundError | FileExistsError | IsADirectoryError.

Inductive ret (A : Type) : Type :=
| Returns (a : A)
| Raises (e : error).
Arguments Returns {A} a.
Arguments Raises {A} e.

(** A computation on the file system that returns or raises. *)
Definition io (A : Type) : Type := file_system → ret A * file_system.

Definition io_ret {A} (a : A) : io A := fun s => (Returns a, s).

Definition raise {A} (e : error) : io A := fun s => (Raises e, s).

Definition io_bind {A B} (m : io A) (k : A → io B) : io B :=
  fun s =>
    match m s with
    | (Returns a, s') => k a s'
    | (Raises e, s') => (Raises e, s')
    end.

(** A pure step that may raise. *)
Definition lift {A} (r : ret A) : io A := fun s => (r, s).

Notation "'let!' x ':=' m 'in' k" := (io_bind m (fun x => k))
  (at level 10, x name, m at level 200, k at level 200).
Notation "'do!' m 'in' k" := (io_bind m (fun _ => k))
  (at level 10, m at level 200, k at level 200).

(** A lookup that raises [e] when it finds nothing. *)
Definition expect {A} (o : option A) (e : error) : ret A :=
  match o with
  | Some a => Returns a
  | None => Raises e
  end.

Definition ret_bind {A B} (r : ret A) (k : A → ret B) : ret B :=
  match r with
  | Returns a => k a
  | Raises e => Raises e
  end.

(** [os.path.join(a, b)] on POSIX. *)
Fixpoint ends_with_slash (s : string) : bool :=
  match s with
  | EmptyString => false
  | String c EmptyString => Ascii.eqb c "/"%char
  | String _ t => ends_with_slash t
  end.

Definition path_join (a b : string) : string :=
  if String.prefix "/" b then b
  else if String.eqb a "" || ends_with_slash a then a +:+ b
  else a +:+ "/" +:+ b.

(** [os.path.isdir]. *)
Definition isdir (p : string) : io bool :=
  fun s => (Returns (bool_decide (p ∈ dirs s)), s).

(** [os.mkdir]; it refuses a path that exists.  Other failures of the
    operating system (permissions, a missing parent) are not modelled. *)
Definition mkdir (p : string) : io unit :=
  fun s =>
    if bool_decide (p ∈ dirs s) || bool_decide (is_Some (files s !! p))
    then (Raises FileExistsError, s)
    else (Returns tt, {| dirs := {[p]} ∪ dirs s; files := files s |}).

(** [with open(p, "w") as f: json.dump(j, f, indent=4)]: the file is
    created or replaced; the folder it goes to is taken to exist. *)
Definition write_json (p : string) (j : json) : io unit :=
  fun s =>
    if bool_decide (p ∈ dirs s) then (Raises IsADirectoryError, s)
    else (Returns tt, {| dirs := dirs s; files := <[p := j]> (files s) |}).


(** *** The record sets *)

(** [df[cols].loc[id].to_dict()]: the field snapshot of the record [id],
    a function of the selected columns ([None] when no columns were given);
    no result is pandas' [KeyError]. *)
Definition dataframe : Type := option (list string) → Z → option json.

(** [agg_df.loc[(a, b)].to_dict()]. *)
Definition agg_frame : Type := Z → Z → option json.

Record MatchingBase : Type := {
  env_folder : option string;
  left_df : dataframe;
  right_df : option dataframe
}.

(** *** [utils.create_json_pairs] and [utils.format_annotation] *)

Definition pair_element (count : nat) (classification : string)
  (left_pair right_pair : json) (row : Z * Z) (agg : json) : json :=
  JObj [ ("cod", JInt (Z.of_nat count));
         ("classification", JStr classification);
         ("a", left_pair); ("b", right_pair);
         ("identifiers", JObj [("a", JInt row.1); ("b", JInt row.2)]);
         ("agg", agg) ].

(** The loop of [create_json_pairs], entered with the count so far. *)
Fixpoint create_json_loop (left_df : dataframe) (right_df : option dataframe)
  (left_cols right_cols : option (list string)) (agg_df : option agg_frame)
  (classification : string) (rec_max : option Z)
  (list_of_pairs : list (Z * Z)) (count : nat) : ret (list json) :=
  match list_of_pairs with
  | [] => Returns []
  | row :: rest =>
      let count := S count in
      ret_bind (expect (left_df left_cols row.1) KeyError) (fun left_pair =>
      ret_bind (expect (match right_df with
                        | Some rdf => rdf right_cols row.2
                        | None => left_df left_cols row.2
                        end) KeyError) (fun right_pair =>
      ret_bind (match agg_df with
                | None => Returns JNull
                | Some adf => expect (adf row.1 row.2) KeyError
                end) (fun agg =>
      let element :=
        pair_element count classification left_pair right_pair row agg in
      if bool_decide (rec_max = Some (Z.of_nat count)) then Returns [element]
      else
        ret_bind (create_json_loop left_df right_df left_cols right_cols
                    agg_df classification rec_max rest count)
                 (fun object_list => Returns (element :: object_list)))))
  end.

Definition create_json_pairs (left_df : dataframe) (right_df : option dataframe)
  (left_cols right_cols : option (list string)) (list_of_pairs : list (Z * Z))
  (agg_df : option agg_frame) (classification : string) (rec_max : option Z)
  : ret (list json) :=
  create_json_loop left_df right_df left_cols right_cols agg_df classification
    rec_max list_of_pairs 0.

(** [[l[x:x+batchsize] for x in range(0, len(l), batchsize)]]: [range]
    refuses a zero step and is empty for a negative one. *)
Fixpoint chunks_fuel {A} (fuel n : nat) (l : list A) : list (list A) :=
  match fuel with
  | O => []
  | S fuel' =>
      match l with
      | [] => []
      | _ => take n l :: chunks_fuel fuel' n (drop n l)
      end
  end.

Definition py_chunks {A} (l : list A) (batchsize : Z) : ret (list (list A)) :=
  if (batchsize =? 0)%Z then Raises ValueError
  else if (batchsize <? 0)%Z then Returns []
  else Returns (chunks_fuel (length l) (Z.to_nat batchsize) l).

(** [mapM]: the snapshots of a batch of identifiers. *)
Fixpoint snapshots {K} (df : K → option json) (ids : list K)
  : ret (list json) :=
  match ids with
  | [] => Returns []
  | i :: t =>
      ret_bind (expect (df i) KeyError) (fun r =>
      ret_bind (snapshots df t) (fun rs => Returns (r :: rs)))
  end.

(** The inner loop of [format_annotation] over one batch; [agg[subindex]]
    raises a [TypeError] when [agg] is [None]. *)
Fixpoint format_batch (lefts rights : list json) (aggs : option (list json))
  (pairs : list (Z * Z)) (count : nat) : ret (list json * nat) :=
  match pairs, lefts, rights with
  | [], _, _ => Returns ([], count)
  | row :: pairs', l :: lefts', r :: rights' =>
      match aggs with
      | None => Raises TypeError
      | Some [] => Raises KeyError
      | Some (agg :: aggs') =>
          ret_bind (format_batch lefts' rights' (Some aggs') pairs' (S count))
            (fun '(object_list, count') =>
               Returns (pair_element (S count) "" l r row agg :: object_list,
                        count'))
      end
  | _, _, _ => Raises KeyError
  end.

Fixpoint format_batches (left_df : dataframe) (right_df : option dataframe)
  (agg_df : option agg_frame) (left_cols right_cols : option (list string))
  (batches : list (list (Z * Z))) (count : nat) : ret (list json) :=
  match batches with
  | [] => Returns []
  | current :: rest =>
      ret_bind (snapshots (left_df left_cols) current.*1) (fun lefts =>
      ret_bind (snapshots (match right_df with
                           | Some rdf => rdf right_cols
                           | None => left_df left_cols
                           end) current.*2) (fun rights =>
      ret_bind (match agg_df with
                | None => Returns None
                | Some adf =>
                    ret_bind (snapshots (fun p : Z * Z => adf p.1 p.2) current)
                             (fun a => Returns (Some a))
                end) (fun aggs =>
      ret_bind (format_batch lefts rights aggs current count)
        (fun '(object_list, count') =>
           ret_bind (format_batches left_df right_df agg_df left_cols
                       right_cols rest count')
             (fun more => Returns (object_list ++ more)%list)))))
  end.

Definition format_annotation (list_of_pairs : list (Z * Z))
  (left_df : dataframe) (right_df : option dataframe)
  (agg_df : option agg_frame) (left_cols right_cols : option (list string))
  (batchsize : Z) : ret (list json) :=
  ret_bind (py_chunks list_of_pairs batchsize) (fun splitted_list_of_pairs =>
  format_batches left_df right_df agg_df left_cols right_cols
    splitted_list_of_pairs 0).

(** *** [save_files], [save_pairs] and [load_pairs] *)

Definition not_allowed : error :=
  Exception "Overwrite of annotation files not allowed.".

Definition no_folder : error := Exception "No working folder was provided.".

(** [for index, current_batch in enumerate(batches)]: one file per batch. *)
Fixpoint write_batches (output : string) (batches : list (list json))
  (index : nat) : io unit :=
  match batches with
  | [] => io_ret tt
  | current_batch :: rest =>
      do! write_json (path_join output ("PAIRS_" +:+ pretty index +:+ ".json"))
            (JObj [("pairs", JArr current_batch)]) in
      write_batches output rest (S index)
  end.

Definition save_files (self : MatchingBase) (pairs : list (Z * Z))
  (aggr_df : option agg_frame) (output_folder : option string)
  (left_cols right_cols : option (list string)) (overwrite : bool)
  (batchsize : Z) : io unit :=
  match env_folder self, output_folder with
  | None, None => raise no_folder
  | _, _ =>
      let output :=
        match env_folder self with
        | Some env => env
        | None => default "" output_folder
        end in
      let annotation_folder := path_join output "annotation_files" in
      let! exists_ := isdir annotation_folder in
      do! (if exists_ : bool then io_ret tt else mkdir annotation_folder) in
      if negb overwrite then raise not_allowed
      else
        let! json_list :=
          lift (format_annotation pairs (left_df self) (right_df self) aggr_df
                  left_cols right_cols 5000) in
        let! batches := lift (py_chunks json_list batchsize) in
        write_batches output batches 0
  end.

Definition save_pairs (self : MatchingBase)
  (positive_pairs potential_pairs negative_pairs : list (Z * Z))
  (left_cols right_cols : option (list string)) (agg_df : option agg_frame)
  (overwrite : bool) (negative_max : option Z) : io unit :=
  match env_folder self with
  | None => raise no_folder
  | Some env =>
      let annotation_folder := path_join env "annotation_files" in
      let! exists_ := isdir annotation_folder in
      do! (if exists_ : bool then io_ret tt else mkdir annotation_folder) in
      if negb overwrite then raise not_allowed
      else
        let! json_list :=
          lift (create_json_pairs (left_df self) (right_df self) left_cols
                  right_cols positive_pairs agg_df "positive" None) in
        do! write_json
              (path_join (path_join env "annotation_files") "POSITIVE_PAIRS.json")
              (JObj [("pairs", JArr json_list)]) in
        let! json_list :=
          lift (create_json_pairs (left_df self) (right_df self) left_cols
                  right_cols potential_pairs agg_df "potential" None) in
        do! write_json
              (path_join (path_join env "annotation_files") "POTENTIAL_PAIRS.json")
              (JObj [("pairs", JArr json_list)]) in
        let! json_list :=
          lift (create_json_pairs (left_df self) (right_df self) left_cols
                  right_cols negative_pairs agg_df "negative" negative_max) in
        write_json
          (path_join (path_join env "annotation_files") "NEGATIVE_PAIRS.json")
          (JObj [("pairs", JArr json_list)])
  end.






(** *** A small store *)

(** The records 1 to 4 with the columns [ano] and [sexo].  As with every
    pandas frame, [df[None]] and a column the frame does not have are
    [KeyError]s, and so is an identifier that is not in the index. *)
Definition ex_cell (c : string) (i : Z) : option json :=
  if String.eqb c "ano" then Some (JInt (1980 + i))
  else if String.eqb c "sexo" then Some (JStr "F")
  else None.

Fixpoint ex_row (cols : list string) (i : Z) : option (list (string * json)) :=
  match cols with
  | [] => Some []
  | c :: t =>
      match ex_cell c i, ex_row t i with
      | Some v, Some fields => Some ((c, v) :: fields)
      | _, _ => None
      end
  end.

Definition ex_df : dataframe :=
  fun cols i =>
    match cols with
    | None => None
    | Some cs =>
        if bool_decide (i ∈ [1; 2; 3; 4]%Z) then JObj <$> ex_row cs i else None
    end.

(** The columns the examples select. *)
Definition ex_cols : option (list string) := Some ["ano"].

Definition ex_self : MatchingBase :=
  {| env_folder := Some "work"; left_df := ex_df; right_df := None |}.

(** A store in which the annotation files of an earlier export exist. *)
Definition ex_store : file_system :=
  {| dirs := {["work"; "work/annotation_files"]};
     files := {[ "work/annotation_files/POSITIVE_PAIRS.json" := JObj [("pairs", JArr [])];
                 "work/annotation_files/POTENTIAL_PAIRS.json" := JObj [("pairs", JArr [])] ]} |}.

Example save_pairs_ex_refused :
  save_pairs ex_self [(1, 2)]%Z [(3, 4)]%Z [] None None None false (Some 1000%Z)
    ex_store
  = (Raises not_allowed, ex_store).
Proof. reflexivity. Qed.

Example save_pairs_ex_written :
  (save_pairs ex_self [(1, 2)]%Z [(3, 4)]%Z [] ex_cols None None true
     (Some 1000%Z) ex_store).1 = Returns tt
  ∧ files (save_pairs ex_self [(1, 2)]%Z [(3, 4)]%Z [] ex_cols None None true
             (Some 1000%Z) ex_store).2
    !! "work/annotation_files/POSITIVE_PAIRS.json"
    = Some (JObj [("pairs",
              JArr [pair_element 1 "positive" (JObj [("ano", JInt 1981)])
                      (JObj [("ano", JInt 1982)]) (1, 2)%Z JNull])]).
Proof. split; reflexivity. Qed.

(** Without a column list the frame cannot be read: [left_df[None]]. *)
Example save_pairs_ex_no_columns :
  (save_pairs ex_self [(1, 2)]%Z [(3, 4)]%Z [] None None None true
     (Some 1000%Z) ex_store).1 = Raises KeyError.
Proof. reflexivity. Qed.

(** *** The overwrite flag *)

Lemma save_pairs_refused self positive potential negative left_cols right_cols
  agg_df negative_max s :
  ∃ e,
    (save_pairs self positive potential negative left_cols right_cols agg_df
       false negative_max s).1 = Raises e
    ∧ files (save_pairs self positive potential negative left_cols right_cols
               agg_df false negative_max s).2 = files s.
Proof.
  unfold save_pairs. destruct (env_folder self) as [env|]; [|by eexists].
  unfold io_bind, isdir, mkdir, raise, io_ret. simpl.
  destruct (bool_decide (path_join env "annotation_files" ∈ dirs s));
    simpl; [by eexists|].
  destruct (_ || _); simpl; by eexists.
Qed.

Lemma save_files_refused self pairs aggr_df output_folder left_cols right_cols
  batchsize s :
  ∃ e,
    (save_files self pairs aggr_df output_folder left_cols right_cols false
       batchsize s).1 = Raises e
    ∧ files (save_files self pairs aggr_df output_folder left_cols right_cols
               false batchsize s).2 = files s.
Proof.
  unfold save_files.
  assert (∀ output,
    ∃ e,
      ((let! exists_ := isdir (path_join output "annotation_files") in
        do! (if exists_ : bool then io_ret tt
             else mkdir (path_join output "annotation_files")) in
        raise not_allowed) s : ret unit * file_system).1 = Raises e
      ∧ files ((let! exists_ := isdir (path_join output "annotation_files") in
                do! (if exists_ : bool then io_ret tt
                     else mkdir (path_join output "annotation_files")) in
                raise not_allowed) s : ret unit * file_system).2 = files s)
    as Hgen.
  { intros output. unfold io_bind, isdir, mkdir, raise, io_ret. simpl.
    destruct (bool_decide (path_join output "annotation_files" ∈ dirs s));
      simpl; [by eexists|].
    destruct (_ || _); simpl; by eexists. }
  destruct (env_folder self) as [env|], output_folder as [out|]; simpl;
    try apply Hgen. by eexists.
Qed.

(** C6. Without the overwrite flag [save_pairs] and [save_files] raise and
    leave every file as it was, whether or not the annotation files exist
    (at most the annotation folder has been created); so an export that
    changes a file was called with the flag set. *)
Theorem export_needs_overwrite :
  (∀ self positive potential negative left_cols right_cols agg_df
     negative_max s,
     ∃ e,
       (save_pairs self positive potential negative left_cols right_cols
          agg_df false negative_max s).1 = Raises e
       ∧ files (save_pairs self positive potential negative left_cols
                  right_cols agg_df false negative_max s).2 = files s)
  ∧ (∀ self pairs aggr_df output_folder left_cols right_cols batchsize s,
     ∃ e,
       (save_files self pairs aggr_df output_folder left_cols right_cols false
          batchsize s).1 = Raises e
       ∧ files (save_files self pairs aggr_df output_folder left_cols
                  right_cols false batchsize s).2 = files s)
  ∧ (∀ self positive potential negative left_cols right_cols agg_df overwrite
       negative_max s,
       files (save_pairs self positive potential negative left_cols right_cols
                agg_df overwrite negative_max s).2 ≠ files s →
       overwrite = true)
  ∧ (∀ self pairs aggr_df output_folder left_cols right_cols overwrite
       batchsize s,
       files (save_files self pairs aggr_df output_folder left_cols right_cols
                overwrite batchsize s).2 ≠ files s →
       overwrite = true).
Proof.
  split_and!.
  - intros. apply save_pairs_refused.
  - intros. apply save_files_refused.
  - intros self positive potential negative left_cols right_cols agg_df
      [|] negative_max s Hne; [done|]. destruct Hne.
    by destruct (save_pairs_refused self positive potential negative left_cols
                   right_cols agg_df negative_max s) as (e & _ & ?).
  - intros self pairs aggr_df output_folder left_cols right_cols
      [|] batchsize s Hne; [done|]. destruct Hne.
    by destruct (save_files_refused self pairs aggr_df output_folder left_cols
                   right_cols batchsize s) as (e & _ & ?).
Qed.

(** The claim at [ex_store], where the annotation files exist. *)
Lemma export_needs_overwrite_witness :
  is_Some (files ex_store !! "work/annotation_files/POSITIVE_PAIRS.json")
  ∧ ∃ e,
      (save_pairs ex_self [(1, 2)]%Z [(3, 4)]%Z [] None None None false
         (Some 1000%Z) ex_store).1 = Raises e
      ∧ files (save_pairs ex_self [(1, 2)]%Z [(3, 4)]%Z [] None None None false
                 (Some 1000%Z) ex_store).2 = files ex_store.
Proof.
  split; [by eexists|].
  apply (proj1 export_needs_overwrite).
Defined.

(** *** Export, then import *)



Lemma path_join_name_inj a b b' :
  String.prefix "/" b = false → String.prefix "/" b' = false →
  path_join a b = path_join a b' → b = b'.
Proof.
  unfold path_join. intros -> ->.
  destruct (String.eqb a "" || ends_with_slash a).
  - apply String.app_inj.
  - intros H%String.app_inj. by apply String.app_inj in H.
Qed.





(** *** More on [create_json_pairs] *)

(** How many elements the loop keeps when it is entered with [count]
    elements already numbered and [n] pairs left: the limit only counts
    when the numbering reaches it. *)
Definition kept_count (rec_max : option Z) (count n : nat) : nat :=
  match rec_max with
  | Some m =>
      if decide (Z.of_nat count < m ≤ Z.of_nat (count + n))%Z
      then Z.to_nat (m - Z.of_nat count) else n
  | None => n
  end.

Lemma create_json_loop_numbered left_df right_df left_cols right_cols agg_df
  cls rec_max pairs count l :
  create_json_loop left_df right_df left_cols right_cols agg_df cls rec_max
    pairs count = Returns l →
  length l = kept_count rec_max count (length pairs)
  ∧ ∀ i j, l !! i = Some j →
      get "cod" j = Some (JInt (Z.of_nat (count + i + 1)))
      ∧ get "classification" j = Some (JStr cls)
      ∧ ∃ p, pairs !! i = Some p
             ∧ get "identifiers" j
               = Some (JObj [("a", JInt p.1); ("b", JInt p.2)]).
Proof.
  revert count l. induction pairs as [|row rest IH]; intros count l; simpl.
  - intros [= <-]. split; [|done].
    unfold kept_count. destruct rec_max; [|done]. case_decide; [lia|done].
  - destruct (left_df left_cols row.1) as [lp|]; simpl; [|done].
    destruct (match right_df with
              | Some rdf => rdf right_cols row.2
              | None => left_df left_cols row.2
              end) as [rp|]; simpl; [|done].
    destruct (match agg_df with
              | Some adf => expect (adf row.1 row.2) KeyError
              | None => Returns JNull
              end) as [agg|]; simpl; [|done].
    case_bool_decide as Hmax.
    + intros [= <-]. split.
      * unfold kept_count. rewrite Hmax. rewrite decide_True by lia. simpl. lia.
      * intros [|i] j Hj; [|done]. simpl in Hj. simplify_eq. simpl.
        replace (count + 0 + 1) with (S count) by lia. eauto.
    + destruct (create_json_loop left_df right_df left_cols right_cols agg_df
                  cls rec_max rest (S count)) as [l'|] eqn:Hl'; simpl; [|done].
      intros [= <-]. destruct (IH _ _ Hl') as [Hlen Helts]. split.
      * simpl. rewrite Hlen. unfold kept_count. destruct rec_max as [m|]; [|done].
        assert (m ≠ Z.of_nat (S count)) by congruence.
        repeat case_decide; lia.
      * intros [|i] j Hj.
        { simpl in Hj. simplify_eq. simpl.
          replace (count + 0 + 1) with (S count) by lia. eauto. }
        simpl in Hj. destruct (Helts i j Hj) as (Hcod & Hcls & p & Hp & Hid).
        replace (count + S i + 1) with (S count + i + 1) by lia. eauto.
Qed.

(** The elements that [create_json_pairs] returns are numbered 1, 2, ... in
    [cod], carry the classification asked for and the identifiers of the
    pair at the same position; their number is [rec_max] when
    [1 <= rec_max <= len(pairs)] and the number of pairs otherwise: a limit
    of zero or less is no limit. *)
Theorem create_json_pairs_numbered left_df right_df left_cols right_cols
  pairs agg_df cls rec_max l :
  create_json_pairs left_df right_df left_cols right_cols pairs agg_df cls
    rec_max = Returns l →
  length l
  = match rec_max with
    | Some m => if decide (1 ≤ m ≤ Z.of_nat (length pairs))%Z
                then Z.to_nat m else length pairs
    | None => length pairs
    end
  ∧ ∀ i j, l !! i = Some j →
      get "cod" j = Some (JInt (Z.of_nat i + 1))
      ∧ get "classification" j = Some (JStr cls)
      ∧ ∃ p, pairs !! i = Some p
             ∧ get "identifiers" j
               = Some (JObj [("a", JInt p.1); ("b", JInt p.2)]).
Proof.
  intros Hl. destruct (create_json_loop_numbered _ _ _ _ _ _ _ _ _ _ Hl)
    as [Hlen Helts].
  split.
  - rewrite Hlen. unfold kept_count. destruct rec_max as [m|]; [|done].
    simpl. repeat case_decide; try lia; f_equal; lia.
  - intros i j Hj. destruct (Helts i j Hj) as (Hcod & Hcls & Hp).
    split_and!; [|done..]. rewrite Hcod. do 2 f_equal. lia.
Qed.

(** The property at three negative pairs with the limit 2, and with the
    limit 0. *)
Lemma create_json_pairs_numbered_witness :
  (∃ l, create_json_pairs ex_df None ex_cols None [(1, 2); (2, 3); (3, 4)]%Z
          None "negative" (Some 2%Z) = Returns l ∧ length l = 2)
  ∧ (∃ l, create_json_pairs ex_df None ex_cols None [(1, 2); (2, 3); (3, 4)]%Z
            None "negative" (Some 0%Z) = Returns l ∧ length l = 3).
Proof.
  split; eexists; (split; [reflexivity|]).
  - apply (create_json_pairs_numbered ex_df None ex_cols None
             [(1, 2); (2, 3); (3, 4)]%Z None "negative" (Some 2%Z)).
    reflexivity.
  - apply (create_json_pairs_numbered ex_df None ex_cols None
             [(1, 2); (2, 3); (3, 4)]%Z None "negative" (Some 0%Z)).
    reflexivity.
Defined.

(** *** The pagination [[l[x:x+batchsize] for x in range(0, len(l), batchsize)]] *)

Lemma chunks_fuel_spec {A} (fuel n : nat) (l : list A) :
  (1 ≤ n)%nat → (length l ≤ fuel)%nat →
  concat (chunks_fuel fuel n l) = l
  ∧ Forall (fun c => (1 ≤ length c ≤ n)%nat) (chunks_fuel fuel n l)
  ∧ (∀ i c, chunks_fuel fuel n l !! i = Some c →
       (S i < length (chunks_fuel fuel n l))%nat → length c = n).
Proof.
  intros Hn. revert l. induction fuel as [|fuel IH]; intros l Hfuel.
  - destruct l; [|simpl in Hfuel; lia]. simpl. split_and!; [done..|].
    intros i c. by rewrite lookup_nil.
  - destruct l as [|x l]; simpl.
    { split_and!; [done..|]. intros i c. by rewrite lookup_nil. }
    destruct n as [|n]; [lia|]. simpl.
    destruct (IH (drop n l)) as (Hcat & Hall & Hfull).
    { rewrite length_drop. simpl in Hfuel. lia. }
    split_and!.
    + rewrite Hcat. by rewrite take_drop.
    + constructor; [|done]. simpl. rewrite length_take. lia.
    + intros [|i] c Hc Hlen; simpl in *.
      * simplify_eq. simpl. rewrite length_take.
        destruct (chunks_fuel fuel (S n) (drop n l)) as [|c' cs] eqn:Hcs;
          [simpl in Hlen; lia|].
        assert (drop n l ≠ []) as Hne.
        { intros Hd. rewrite Hd in Hcs. by destruct fuel. }
        assert (n < length l)%nat; [|lia].
        destruct (Nat.lt_ge_cases n (length l)) as [|Hge]; [done|].
        by rewrite (drop_ge l n) in Hne by lia.
      * apply (Hfull i); [done|lia].
Qed.

(** For a positive batch size the batches, glued in order, give back the
    list; every batch has between 1 and [batchsize] elements and every batch
    but the last has exactly [batchsize].  A batch size of zero is refused
    and a negative one yields no batch at all, whatever the list. *)
Theorem py_chunks_pages {A} (l : list A) (batchsize : Z) :
  ((0 < batchsize)%Z →
     ∃ cs, py_chunks l batchsize = Returns cs
       ∧ concat cs = l
       ∧ Forall (fun c => (1 ≤ Z.of_nat (length c) ≤ batchsize)%Z) cs
       ∧ (∀ i c, cs !! i = Some c → (S i < length cs)%nat →
            Z.of_nat (length c) = batchsize))
  ∧ (batchsize = 0%Z → py_chunks l batchsize = Raises ValueError)
  ∧ ((batchsize < 0)%Z → py_chunks l batchsize = Returns []).
Proof.
  unfold py_chunks. split_and!.
  - intros Hb. destruct (Z.eqb_spec batchsize 0); [lia|].
    destruct (Z.ltb_spec batchsize 0); [lia|].
    destruct (chunks_fuel_spec (length l) (Z.to_nat batchsize) l)
      as (Hcat & Hall & Hfull); [lia|done|].
    eexists. split_and!; [done|done| |].
    + eapply Forall_impl; [exact Hall|]. simpl. lia.
    + intros i c Hc Hi. rewrite (Hfull i c Hc Hi). lia.
  - by intros ->.
  - intros Hb. destruct (Z.eqb_spec batchsize 0); [lia|].
    by destruct (Z.ltb_spec batchsize 0); [|lia].
Qed.

(** The property at seven elements in pages of three. *)
Lemma py_chunks_pages_witness :
  py_chunks [1; 2; 3; 4; 5; 6; 7]%Z 3 = Returns [[1; 2; 3]; [4; 5; 6]; [7]]%Z
  ∧ ∃ cs, py_chunks [1; 2; 3; 4; 5; 6; 7]%Z 3 = Returns cs
      ∧ concat cs = [1; 2; 3; 4; 5; 6; 7]%Z.
Proof.
  split; [reflexivity|].
  destruct (proj1 (py_chunks_pages [1; 2; 3; 4; 5; 6; 7]%Z 3))
    as (cs & Hcs & Hcat & _); [lia|].
  exists cs. by split.
Defined.

(** *** [format_annotation] against [create_json_pairs] *)

Lemma snapshots_cases {K} (df : K → option json) (ids : list K) :
  (∃ xs, snapshots df ids = Returns xs) ∨ snapshots df ids = Raises KeyError.
Proof.
  induction ids as [|i ids IH]; simpl; [by left; eexists|].
  destruct (df i); simpl; [|by right].
  destruct IH as [[xs ->]| ->]; simpl; [left; by eexists|by right].
Qed.

Lemma snapshots_cons {K} (df : K → option json) i ids :
  snapshots df (i :: ids)
  = ret_bind (expect (df i) KeyError) (fun r =>
    ret_bind (snapshots df ids) (fun rs => Returns (r :: rs))).
Proof. reflexivity. Qed.

Lemma create_json_loop_app left_df right_df left_cols right_cols agg_df cls
  pairs1 pairs2 count :
  create_json_loop left_df right_df left_cols right_cols agg_df cls None
    (pairs1 ++ pairs2) count
  = ret_bind (create_json_loop left_df right_df left_cols right_cols agg_df
                cls None pairs1 count) (fun l1 =>
    ret_bind (create_json_loop left_df right_df left_cols right_cols agg_df
                cls None pairs2 (count + length pairs1)) (fun l2 =>
    Returns (l1 ++ l2)%list)).
Proof.
  revert count. induction pairs1 as [|row rest IH]; intros count; simpl.
  - rewrite Nat.add_0_r.
    by destruct (create_json_loop _ _ _ _ _ _ _ pairs2 count).
  - destruct (left_df left_cols row.1) as [lp|]; simpl; [|done].
    destruct (match right_df with
              | Some rdf => rdf right_cols row.2
              | None => left_df left_cols row.2
              end) as [rp|]; simpl; [|done].
    destruct (match agg_df with
              | Some adf => expect (adf row.1 row.2) KeyError
              | None => Returns JNull
              end) as [agg|]; simpl; [|done].
    rewrite IH. replace (count + S (length rest)) with (S count + length rest)
      by lia.
    destruct (create_json_loop _ _ _ _ _ _ _ rest (S count)); simpl; [|done].
    by destruct (create_json_loop _ _ _ _ _ _ _ pairs2 _).
Qed.

(** One batch of [format_annotation]: the three batched lookups, then the
    inner loop. *)
Definition format_one_batch (left_df : dataframe) (right_df : option dataframe)
  (adf : agg_frame) (left_cols right_cols : option (list string))
  (current : list (Z * Z)) (count : nat) : ret (list json * nat) :=
  ret_bind (snapshots (left_df left_cols) current.*1) (fun lefts =>
  ret_bind (snapshots (match right_df with
                       | Some rdf => rdf right_cols
                       | None => left_df left_cols
                       end) current.*2) (fun rights =>
  ret_bind (ret_bind (snapshots (fun p : Z * Z => adf p.1 p.2) current)
                     (fun a => Returns (Some a))) (fun aggs =>
  format_batch lefts rights aggs current count))).

Lemma format_one_batch_loop left_df right_df adf left_cols right_cols
  current count :
  format_one_batch left_df right_df adf left_cols right_cols current count
  = ret_bind (create_json_loop left_df right_df left_cols right_cols (Some adf)
                "" None current count)
             (fun l => Returns (l, count + length current)).
Proof.
  revert count. induction current as [|row rest IH]; intros count.
  - unfold format_one_batch. simpl. by rewrite Nat.add_0_r.
  - specialize (IH (S count)). revert IH. unfold format_one_batch.
    rewrite !fmap_cons, !snapshots_cons.
    replace (count + length (row :: rest)) with (S count + length rest)
      by (simpl; lia).
    cbn [create_json_loop].
    destruct right_df as [rdf|];
      match goal with
      | |- context [snapshots ?f rest.*2] =>
          destruct (snapshots_cases (left_df left_cols) rest.*1)
            as [[ls ->]| ->];
          destruct (snapshots_cases f rest.*2) as [[rs ->]| ->];
          destruct (snapshots_cases (fun p : Z * Z => adf p.1 p.2) rest)
            as [[ags ->]| ->];
          destruct (left_df left_cols row.1) as [lp|];
          destruct (f row.2) as [rp|];
          destruct (adf row.1 row.2) as [ag|]; simpl; try done
      end;
      match goal with
      | |- context [create_json_loop ?a ?b ?c ?d ?e ?f ?g rest ?h] =>
          destruct (create_json_loop a b c d e f g rest h) as [l'|e']
      end;
      simpl; try done; try (by intros [= <-]);
      repeat match goal with
             | |- context [format_batch ?a ?b ?c ?d ?e] =>
                 destruct (format_batch a b c d e) as [[? ?]|?]
             end;
      simpl; try done; try (by intros [= <- <-]); by intros [= <-].
Qed.

Lemma format_batches_loop left_df right_df adf left_cols right_cols batches
  count :
  format_batches left_df right_df (Some adf) left_cols right_cols batches count
  = create_json_loop left_df right_df left_cols right_cols (Some adf) "" None
      (concat batches) count.
Proof.
  revert count. induction batches as [|current rest IH]; intros count; [done|].
  assert (format_batches left_df right_df (Some adf) left_cols right_cols
            (current :: rest) count
          = ret_bind (format_one_batch left_df right_df adf left_cols right_cols
                        current count)
              (fun '(object_list, count') =>
                 ret_bind (format_batches left_df right_df (Some adf) left_cols
                             right_cols rest count')
                   (fun more => Returns (object_list ++ more)%list))) as ->.
  { unfold format_one_batch. cbn [format_batches].
    destruct (snapshots (left_df left_cols) current.*1); [simpl|done].
    destruct (snapshots _ current.*2); [simpl|done].
    by destruct (snapshots _ current). }
  rewrite format_one_batch_loop. simpl. rewrite create_json_loop_app.
  destruct (create_json_loop _ _ _ _ _ _ _ current count); simpl; [|done].
  by rewrite IH.
Qed.

Lemma format_annotation_loop pairs left_df right_df adf left_cols right_cols
  batchsize :
  (0 < batchsize)%Z →
  format_annotation pairs left_df right_df (Some adf) left_cols right_cols
    batchsize
  = create_json_loop left_df right_df left_cols right_cols (Some adf) "" None
      pairs 0.
Proof.
  intros Hb. unfold format_annotation, py_chunks.
  destruct (Z.eqb_spec batchsize 0); [lia|].
  destruct (Z.ltb_spec batchsize 0); [lia|]. simpl.
  rewrite format_batches_loop.
  by destruct (chunks_fuel_spec (length pairs) (Z.to_nat batchsize) pairs)
    as [-> _]; [lia|done|].
Qed.

(** Given an aggregate frame, [format_annotation] returns or raises the same
    for every positive batch size; the list it returns has one element per
    pair, numbered 1, 2, ... in [cod] across the batches, with the empty
    classification and the identifiers of the pair at the same position. *)
Theorem format_annotation_pages pairs left_df right_df adf left_cols
  right_cols batchsize batchsize' :
  (0 < batchsize)%Z → (0 < batchsize')%Z →
  format_annotation pairs left_df right_df (Some adf) left_cols right_cols
    batchsize
  = format_annotation pairs left_df right_df (Some adf) left_cols right_cols
      batchsize'
  ∧ ∀ l,
      format_annotation pairs left_df right_df (Some adf) left_cols right_cols
        batchsize = Returns l →
      length l = length pairs
      ∧ ∀ i j, l !! i = Some j →
          get "cod" j = Some (JInt (Z.of_nat i + 1))
          ∧ get "classification" j = Some (JStr "")
          ∧ ∃ p, pairs !! i = Some p
                 ∧ get "identifiers" j
                   = Some (JObj [("a", JInt p.1); ("b", JInt p.2)]).
Proof.
  intros Hb Hb'. rewrite !format_annotation_loop by done. split; [done|].
  intros l Hl.
  destruct (create_json_loop_numbered _ _ _ _ _ _ _ _ _ _ Hl) as [Hlen Helts].
  split; [done|]. intros i j Hj.
  destruct (Helts i j Hj) as (Hcod & Hcls & Hp).
  split_and!; [|done..]. rewrite Hcod. do 2 f_equal. lia.
Qed.

Definition ex_agg : agg_frame :=
  fun a b => Some (JObj [("score", JInt (a + b))]).

(** The property at three pairs, in batches of two and of 5000. *)
Lemma format_annotation_pages_witness :
  format_annotation [(1, 2); (2, 3); (3, 4)]%Z ex_df None (Some ex_agg) ex_cols
    None 2
  = format_annotation [(1, 2); (2, 3); (3, 4)]%Z ex_df None (Some ex_agg) ex_cols
      None 5000.
Proof.
  refine (proj1 (format_annotation_pages [(1, 2); (2, 3); (3, 4)]%Z ex_df None
                   ex_agg ex_cols None 2 5000 _ _)); lia.
Defined.

(** *** [save_files] *)

(** What [save_files] does once the output folder is known. *)
Definition save_files_in (self : MatchingBase) (pairs : list (Z * Z))
  (aggr_df : option agg_frame) (left_cols right_cols : option (list string))
  (overwrite : bool) (batchsize : Z) (output : string) : io unit :=
  let! exists_ := isdir (path_join output "annotation_files") in
  do! (if exists_ : bool then io_ret tt
       else mkdir (path_join output "annotation_files")) in
  if negb overwrite then raise not_allowed
  else
    let! json_list :=
      lift (format_annotation pairs (left_df self) (right_df self) aggr_df
              left_cols right_cols 5000) in
    let! batches := lift (py_chunks json_list batchsize) in
    write_batches output batches 0.

Definition output_of (self : MatchingBase) (output_folder : option string)
  : string :=
  match env_folder self with
  | Some env => env
  | None => default "" output_folder
  end.

Lemma save_files_unfold self pairs aggr_df output_folder left_cols right_cols
  overwrite batchsize :
  save_files self pairs aggr_df output_folder left_cols right_cols overwrite
    batchsize
  = match env_folder self, output_folder with
    | None, None => raise no_folder
    | _, _ =>
        save_files_in self pairs aggr_df left_cols right_cols overwrite
          batchsize (output_of self output_folder)
    end.
Proof.
  unfold save_files, save_files_in, output_of.
  by destruct (env_folder self), output_folder.
Qed.

(** The folder check either raises with the store as it was or goes on in a
    store with the same files. *)
Lemma ensure_folder_cases {A} (folder : string) (k : io A) (s : file_system) :
  (let! exists_ := isdir folder in
   do! (if exists_ : bool then io_ret tt else mkdir folder) in k) s
  = (Raises FileExistsError, s)
  ∨ ∃ s1, files s1 = files s
      ∧ (∀ p, p ∈ dirs s1 ↔ p = folder ∨ p ∈ dirs s)
      ∧ (let! exists_ := isdir folder in
         do! (if exists_ : bool then io_ret tt else mkdir folder) in k) s
        = k s1.
Proof.
  unfold io_bind, isdir, mkdir, io_ret. simpl.
  destruct (bool_decide (folder ∈ dirs s)) eqn:Hdir; simpl.
  - apply bool_decide_eq_true_1 in Hdir.
    right. exists s. split_and!; [done| |done]. intros p. split; [auto|].
    by intros [->|].
  - apply bool_decide_eq_false_1 in Hdir.
    rewrite (bool_decide_eq_false_2 _ Hdir). simpl.
    destruct (bool_decide (is_Some (files s !! folder))); simpl; [by left|].
    right. eexists. split_and!; [| |done]; [done|].
    intros p. simpl. set_solver.
Qed.

Lemma format_batch_no_agg lefts rights row rest count :
  format_batch lefts rights None (row :: rest) count = Raises KeyError
  ∨ format_batch lefts rights None (row :: rest) count = Raises TypeError.
Proof. destruct lefts, rights; simpl; auto. Qed.

(** Without an aggregate frame [format_annotation] raises as soon as there
    is a pair: [agg[subindex]] subscripts [None]. *)
Lemma format_annotation_no_agg pairs left_df right_df left_cols right_cols
  batchsize :
  pairs ≠ [] → (0 < batchsize)%Z →
  ∃ e, format_annotation pairs left_df right_df None left_cols right_cols
         batchsize = Raises e.
Proof.
  intros Hpairs Hb. unfold format_annotation, py_chunks.
  destruct (Z.eqb_spec batchsize 0); [lia|].
  destruct (Z.ltb_spec batchsize 0); [lia|].
  destruct pairs as [|row rest]; [done|].
  destruct (Z.to_nat batchsize) as [|size] eqn:Hsize; [lia|]. simpl.
  destruct (left_df left_cols row.1); simpl; [|by eexists].
  destruct (snapshots (left_df left_cols) _); simpl; [|by eexists].
  destruct (match right_df with
            | Some rdf => rdf right_cols
            | None => left_df left_cols
            end row.2); simpl; [|by eexists].
  destruct (snapshots _ _); simpl; by eexists.
Qed.

(** Without an aggregate frame [save_files] cannot export a single pair: it
    raises and leaves every file as it was, with or without the overwrite
    flag and whatever the batch size. *)
Theorem save_files_needs_aggregate self pairs output_folder left_cols
  right_cols overwrite batchsize s :
  pairs ≠ [] →
  ∃ e,
    (save_files self pairs None output_folder left_cols right_cols overwrite
       batchsize s).1 = Raises e
    ∧ files (save_files self pairs None output_folder left_cols right_cols
               overwrite batchsize s).2 = files s.
Proof.
  intros Hpairs. rewrite save_files_unfold.
  assert (∀ output, ∃ e,
    (save_files_in self pairs None left_cols right_cols overwrite batchsize
       output s).1 = Raises e
    ∧ files (save_files_in self pairs None left_cols right_cols overwrite
               batchsize output s).2 = files s) as Hin.
  { intros output. unfold save_files_in.
    destruct (ensure_folder_cases (path_join output "annotation_files")
      (if negb overwrite then raise not_allowed
       else
         let! json_list :=
           lift (format_annotation pairs (left_df self) (right_df self) None
                   left_cols right_cols 5000) in
         let! batches := lift (py_chunks json_list batchsize) in
         write_batches output batches 0) s) as [->|(s1 & Hfiles & _ & ->)];
      [by eexists|].
    destruct overwrite; simpl; [|by eexists].
    destruct (format_annotation_no_agg pairs (left_df self) (right_df self)
                left_cols right_cols 5000 Hpairs) as [e He]; [lia|].
    unfold io_bind, lift. rewrite He. by eexists. }
  destruct (env_folder self), output_folder; try apply Hin. by eexists.
Qed.

(** The property at [ex_store], with the overwrite flag set. *)
Lemma save_files_needs_aggregate_witness :
  ∃ e,
    (save_files ex_self [(1, 2)]%Z None None ex_cols None true 100 ex_store).1
    = Raises e
    ∧ files (save_files ex_self [(1, 2)]%Z None None ex_cols None true 100
               ex_store).2 = files ex_store.
Proof.
  apply (save_files_needs_aggregate ex_self [(1, 2)]%Z None ex_cols None true
           100 ex_store).
  discriminate.
Defined.

(** With a batch size of zero or less [save_files] writes no file: zero
    always ends in an exception; a negative one, once the records are
    formatted, returns normally with the store as it was. *)
Theorem save_files_no_page self pairs aggr_df output_folder left_cols
  right_cols overwrite batchsize s :
  (batchsize ≤ 0)%Z →
  files (save_files self pairs aggr_df output_folder left_cols right_cols
           overwrite batchsize s).2 = files s
  ∧ (batchsize = 0%Z →
     ∃ e, (save_files self pairs aggr_df output_folder left_cols right_cols
             overwrite batchsize s).1 = Raises e)
  ∧ ((batchsize < 0)%Z → overwrite = true →
     path_join (output_of self output_folder) "annotation_files" ∈ dirs s →
     is_Some (env_folder self) ∨ is_Some output_folder →
     (∃ l, format_annotation pairs (left_df self) (right_df self) aggr_df
             left_cols right_cols 5000 = Returns l) →
     save_files self pairs aggr_df output_folder left_cols right_cols
       overwrite batchsize s = (Returns tt, s)).
Proof.
  intros Hb. rewrite save_files_unfold.
  assert (∀ output,
    files (save_files_in self pairs aggr_df left_cols right_cols overwrite
             batchsize output s).2 = files s
    ∧ (batchsize = 0%Z →
       ∃ e, (save_files_in self pairs aggr_df left_cols right_cols overwrite
               batchsize output s).1 = Raises e)) as Hin.
  { intros output. unfold save_files_in.
    destruct (ensure_folder_cases (path_join output "annotation_files")
      (if negb overwrite then raise not_allowed
       else
         let! json_list :=
           lift (format_annotation pairs (left_df self) (right_df self)
                   aggr_df left_cols right_cols 5000) in
         let! batches := lift (py_chunks json_list batchsize) in
         write_batches output batches 0) s) as [->|(s1 & Hfiles & _ & ->)];
      [split; [done|by eexists]|].
    destruct overwrite; simpl; [|split; [done|by eexists]].
    unfold io_bind, lift.
    destruct (format_annotation _ _ _ _ _ _ _) as [l|e]; simpl;
      [|split; [done|by eexists]].
    unfold py_chunks. destruct (Z.eqb_spec batchsize 0); simpl.
    { split; [done|by eexists]. }
    destruct (Z.ltb_spec batchsize 0); [|lia]. simpl. split; [done|lia]. }
  split_and!.
  - destruct (env_folder self), output_folder; try apply Hin. done.
  - intros Hz.
    destruct (env_folder self), output_folder; try (by apply Hin).
    by eexists.
  - intros Hneg -> Hdir Hfolder [l Hl].
    assert (save_files_in self pairs aggr_df left_cols right_cols true
              batchsize (output_of self output_folder) s = (Returns tt, s))
      as Hrun.
    { unfold save_files_in, io_bind, isdir, lift.
      rewrite bool_decide_eq_true_2 by done. simpl. rewrite Hl. simpl.
      unfold py_chunks. destruct (Z.eqb_spec batchsize 0); [lia|].
      by destruct (Z.ltb_spec batchsize 0); [|lia]. }
    destruct (env_folder self), output_folder; try done.
    destruct Hfolder as [[? [=]]|[? [=]]].
Qed.

(** The property at [ex_store], where the working folder holds the
    annotation folder: with the batch size -1 the call returns and the store
    is as it was. *)
Lemma save_files_no_page_witness :
  save_files ex_self [(1, 2)]%Z (Some ex_agg) None ex_cols None true (-1)
    ex_store
  = (Returns tt, ex_store).
Proof.
  refine (proj2 (proj2 (save_files_no_page ex_self [(1, 2)]%Z (Some ex_agg)
                          None ex_cols None true (-1) ex_store _)) _ _ _ _ _).
  - lia.
  - lia.
  - reflexivity.
  - apply (bool_decide_unpack _). by vm_compute.
  - left. by eexists.
  - eexists. reflexivity.
Defined.

(** The file of the page [index]. *)
Definition page_path (output : string) (index : nat) : string :=
  path_join output ("PAIRS_" +:+ pretty index +:+ ".json").

Lemma string_length_app (s1 s2 : string) :
  String.length (s1 +:+ s2) = (String.length s1 + String.length s2)%nat.
Proof. induction s1 as [|c s1 IH]; simpl; [done|]. by rewrite IH. Qed.

Lemma string_app_inj_r (t s1 s2 : string) : s1 +:+ t = s2 +:+ t → s1 = s2.
Proof.
  revert s2. induction s1 as [|c s1 IH]; intros [|c2 s2] Heq; simpl in *.
  - done.
  - apply (f_equal String.length) in Heq.
    rewrite !string_length_app in Heq. simpl in Heq. lia.
  - apply (f_equal String.length) in Heq.
    rewrite !string_length_app in Heq. simpl in Heq. lia.
  - injection Heq as -> Heq. f_equal. by apply IH.
Qed.

Lemma page_path_inj output i j : page_path output i = page_path output j → i = j.
Proof.
  unfold page_path. intros H%path_join_name_inj; [|done..].
  apply String.app_inj in H. apply string_app_inj_r in H.
  by apply (inj pretty) in H.
Qed.

Lemma write_batches_spec output batches index s s' :
  write_batches output batches index s = (Returns tt, s') →
  dirs s' = dirs s
  ∧ (∀ i page, batches !! i = Some page →
       files s' !! page_path output (index + i)
       = Some (JObj [("pairs", JArr page)]))
  ∧ (∀ p, (∀ i, (i < length batches)%nat → p ≠ page_path output (index + i)) →
       files s' !! p = files s !! p).
Proof.
  revert index s. induction batches as [|page rest IH]; intros index s; simpl.
  - intros [= <-]. split_and!; [done| |done]. intros i page. by rewrite lookup_nil.
  - unfold io_bind at 1, write_json at 1.
    fold (page_path output index).
    case_bool_decide as Hdir; simpl; [done|]. intros Hrun.
    destruct (IH _ _ Hrun) as (Hdirs & Hpages & Hrest). simpl in *.
    split_and!; [done| |].
    + intros [|i] pg Hpg; simpl in Hpg.
      * simplify_eq. rewrite Nat.add_0_r. rewrite Hrest.
        { apply lookup_insert_eq. }
        intros i _ Heq%page_path_inj. lia.
      * replace (index + S i)%nat with (S index + i)%nat by lia. by apply Hpages.
    + intros p Hp. rewrite Hrest.
      * apply lookup_insert_ne. intros <-. apply (Hp 0%nat); [lia|].
        by rewrite Nat.add_0_r.
      * intros i Hi. replace (S (index + i))%nat with (index + S i)%nat by lia.
        apply Hp. lia.
Qed.

(** A [save_files] that returns has cut the formatted list into pages of
    [batchsize] elements, the last one possibly shorter, and left the page
    [i] in the file [PAIRS_i.json] of the output folder itself, not of its
    [annotation_files] folder; every other file is as it was. *)
Theorem save_files_pages self pairs aggr_df output_folder left_cols right_cols
  overwrite batchsize s s' :
  (0 < batchsize)%Z →
  save_files self pairs aggr_df output_folder left_cols right_cols overwrite
    batchsize s = (Returns tt, s') →
  ∃ json_list pages,
    format_annotation pairs (left_df self) (right_df self) aggr_df left_cols
      right_cols 5000 = Returns json_list
    ∧ concat pages = json_list
    ∧ (∀ i page, pages !! i = Some page →
         (1 ≤ Z.of_nat (length page) ≤ batchsize)%Z
         ∧ ((S i < length pages)%nat → Z.of_nat (length page) = batchsize)
         ∧ files s' !! page_path (output_of self output_folder) i
           = Some (JObj [("pairs", JArr page)]))
    ∧ (∀ p, (∀ i, (i < length pages)%nat →
               p ≠ page_path (output_of self output_folder) i) →
         files s' !! p = files s !! p).
Proof.
  intros Hb. rewrite save_files_unfold.
  assert (save_files_in self pairs aggr_df left_cols right_cols overwrite
            batchsize (output_of self output_folder) s = (Returns tt, s') →
          ∃ json_list pages,
            format_annotation pairs (left_df self) (right_df self) aggr_df
              left_cols right_cols 5000 = Returns json_list
            ∧ concat pages = json_list
            ∧ (∀ i page, pages !! i = Some page →
                 (1 ≤ Z.of_nat (length page) ≤ batchsize)%Z
                 ∧ ((S i < length pages)%nat →
                    Z.of_nat (length page) = batchsize)
                 ∧ files s' !! page_path (output_of self output_folder) i
                   = Some (JObj [("pairs", JArr page)]))
            ∧ (∀ p, (∀ i, (i < length pages)%nat →
                       p ≠ page_path (output_of self output_folder) i) →
                 files s' !! p = files s !! p)) as Hin.
  { generalize (output_of self output_folder). intros output.
    unfold save_files_in.
    destruct (ensure_folder_cases (path_join output "annotation_files")
      (if negb overwrite then raise not_allowed
       else
         let! json_list :=
           lift (format_annotation pairs (left_df self) (right_df self)
                   aggr_df left_cols right_cols 5000) in
         let! batches := lift (py_chunks json_list batchsize) in
         write_batches output batches 0) s) as [->|(s1 & Hfiles & _ & ->)];
      [done|].
    destruct overwrite; simpl; [|done].
    unfold io_bind, lift.
    destruct (format_annotation _ _ _ _ _ _ _) as [l|e]; simpl; [|done].
    unfold py_chunks. destruct (Z.eqb_spec batchsize 0); [lia|].
    destruct (Z.ltb_spec batchsize 0); [lia|]. simpl. intros Hrun.
    destruct (write_batches_spec _ _ _ _ _ Hrun) as (_ & Hpages & Hrest).
    destruct (chunks_fuel_spec (length l) (Z.to_nat batchsize) l)
      as (Hcat & Hall & Hfull); [lia|done|].
    exists l, (chunks_fuel (length l) (Z.to_nat batchsize) l).
    split_and!; [done|done| |].
    - intros i page Hpage. split; [|split].
      + rewrite Forall_lookup in Hall. specialize (Hall i page Hpage).
        simpl in Hall. lia.
      + intros Hi. rewrite (Hfull i page Hpage Hi). lia.
      + by apply (Hpages i page).
    - intros p Hp. rewrite <- Hfiles. by apply Hrest. }
  destruct (env_folder self), output_folder; try apply Hin. done.
Qed.

(** The property at [ex_store]: three pairs in pages of two. *)
Lemma save_files_pages_witness :
  files (save_files ex_self [(1, 2); (2, 3); (3, 4)]%Z (Some ex_agg) None
           ex_cols None true 2 ex_store).2 !! "work/PAIRS_1.json"
  = Some (JObj [("pairs",
            JArr [pair_element 3 "" (JObj [("ano", JInt 1983)])
                    (JObj [("ano", JInt 1984)]) (3, 4)%Z
                    (JObj [("score", JInt 7)])])])
  ∧ ∃ json_list pages,
      format_annotation [(1, 2); (2, 3); (3, 4)]%Z ex_df None (Some ex_agg)
        ex_cols None 5000 = Returns json_list
      ∧ concat pages = json_list.
Proof.
  split; [reflexivity|].
  destruct (save_files_pages ex_self [(1, 2); (2, 3); (3, 4)]%Z (Some ex_agg)
              None ex_cols None true 2 ex_store
              (save_files ex_self [(1, 2); (2, 3); (3, 4)]%Z (Some ex_agg) None
                 ex_cols None true 2 ex_store).2)
    as (l & pages & Hl & Hcat & _); [lia|reflexivity|].
  by exists l, pages.
Defined.


(** *** [save_pairs] stage by stage *)

(** [save_pairs] writes each file as soon as its list is built: when the
    potential pairs fail to format, the file of the positive pairs has been
    replaced already and the exception leaves it so; when the negative pairs
    fail, so have both other files. *)
Theorem save_pairs_not_atomic self env positive potential negative left_cols
  right_cols agg_df negative_max s jp :
  env_folder self = Some env →
  path_join env "annotation_files" ∈ dirs s →
  path_join (path_join env "annotation_files") "POSITIVE_PAIRS.json" ∉ dirs s →
  create_json_pairs (left_df self) (right_df self) left_cols right_cols
    positive agg_df "positive" None = Returns jp →
  (∀ e,
     create_json_pairs (left_df self) (right_df self) left_cols right_cols
       potential agg_df "potential" None = Raises e →
     save_pairs self positive potential negative left_cols right_cols agg_df
       true negative_max s
     = (Raises e,
        {| dirs := dirs s;
           files :=
             <[path_join (path_join env "annotation_files")
                 "POSITIVE_PAIRS.json" := JObj [("pairs", JArr jp)]]>
               (files s) |}))
  ∧ (∀ jq e,
       path_join (path_join env "annotation_files") "POTENTIAL_PAIRS.json"
         ∉ dirs s →
       create_json_pairs (left_df self) (right_df self) left_cols right_cols
         potential agg_df "potential" None = Returns jq →
       create_json_pairs (left_df self) (right_df self) left_cols right_cols
         negative agg_df "negative" negative_max = Raises e →
       save_pairs self positive potential negative left_cols right_cols agg_df
         true negative_max s
       = (Raises e,
          {| dirs := dirs s;
             files :=
               <[path_join (path_join env "annotation_files")
                   "POTENTIAL_PAIRS.json" := JObj [("pairs", JArr jq)]]>
                 (<[path_join (path_join env "annotation_files")
                      "POSITIVE_PAIRS.json" := JObj [("pairs", JArr jp)]]>
                    (files s)) |})).
Proof.
  intros Henv Hdir Hpos Hjp. split.
  - intros e Hjq. unfold save_pairs. rewrite Henv.
    unfold io_bind, isdir, lift, write_json, io_ret. simpl.
    rewrite (bool_decide_eq_true_2 _ Hdir). simpl. rewrite Hjp. simpl.
    rewrite (bool_decide_eq_false_2 _ Hpos). simpl. by rewrite Hjq.
  - intros jq e Hpot Hjq Hjn. unfold save_pairs. rewrite Henv.
    unfold io_bind, isdir, lift, write_json, io_ret. simpl.
    rewrite (bool_decide_eq_true_2 _ Hdir). simpl. rewrite Hjp. simpl.
    rewrite (bool_decide_eq_false_2 _ Hpos). simpl. rewrite Hjq. simpl.
    rewrite (bool_decide_eq_false_2 _ Hpot). simpl. by rewrite Hjn.
Qed.

(** The property at [ex_store]: the potential pair names the record 9, which
    does not exist; the positive file, empty before, now holds the pair
    (1, 2). *)
Lemma save_pairs_not_atomic_witness :
  save_pairs ex_self [(1, 2)]%Z [(3, 9)]%Z [] ex_cols None None true
    (Some 1000%Z) ex_store
  = (Raises KeyError,
     {| dirs := dirs ex_store;
        files :=
          <["work/annotation_files/POSITIVE_PAIRS.json" :=
              JObj [("pairs",
                JArr [pair_element 1 "positive" (JObj [("ano", JInt 1981)])
                        (JObj [("ano", JInt 1982)]) (1, 2)%Z JNull])]]>
            (files ex_store) |}).
Proof.
  refine (proj1 (save_pairs_not_atomic ex_self "work" [(1, 2)]%Z [(3, 9)]%Z []
                   ex_cols None None (Some 1000%Z) ex_store _ _ _ _ _)
            KeyError _).
  - reflexivity.
  - apply (bool_decide_unpack _). by vm_compute.
  - apply (bool_decide_unpack _). by vm_compute.
  - reflexivity.
  - reflexivity.
Defined.

End Annotation.
